(** * Workers pool of pyodide-helpers: a shallow embedding and its properties

    The development follows [workers-factory.ts]: the message protocol, the
    in-worker entry point [entryPointWorker], and the orchestrator class
    [WorkersFactory] with its methods [reserve], [schedule],
    [getTaskChannel$], [getIdleWorkerOrCreate$], [createWorker$], [pickTask]
    and [terminate], together with the two event handlers the class installs
    (the [workerReleased$] subscription of the constructor and the
    [worker.onmessage] handler of [createWorker$]).

    Modelling conventions.
    - The orchestrator is single threaded: every method and every event
      handler runs to completion, so each is a function on [State].
    - A JavaScript exception is an [Outcome]; the mutations made before the
      throw stay in the state, as they do in JavaScript.
    - [workers$.value] is a plain object used as a map.  Its own keys are
      worker ids, all of the form [w<number>], so the object keeps insertion
      order and its own properties are an association list without duplicate
      keys.  Reading [workers$.value[key]] also finds the properties the
      object inherits from [Object.prototype], see [getMember].
    - A value that crosses [postMessage] from a worker goes through the
      structured clone algorithm, see [StructuredClone].  The tasks given
      to [schedule] have serialisable arguments, so the [postMessage] of
      the orchestrator does not throw.
    - A [Worker] object is a [WorkerRef], the rank of its [new Worker(url)]
      call; what the orchestrator does to the outside world
      ([worker.postMessage], [worker.terminate]) is appended to [trace].
    - [Math.random] is an oracle [rng] read at cursor [rngPos].
    - An rxjs subscription that can change the pool later is kept in the
      state: [installing] (a subscribed [createWorker$] pipeline waiting for
      the first [Exit] on its worker channel) and [exitSubs] (the
      subscription [pickTask] makes on the channel of the task it sends).
      The subscriptions of [getTaskChannel$] that only feed the [Process]
      log are not part of the pool state and are left out.
    - [Context] (logging) is not part of the sources at hand;
      [context.withChild(title, f)] is taken to run [f] and to return or
      rethrow what [f] returns or throws. *)

From Stdlib Require Import ZArith Lia.
From stdpp Require Import base option list strings pretty gmap.

Local Open Scope string_scope.
Local Open Scope list_scope.

(** ** Message protocol *)

Definition WorkerId := string.
Definition TaskId := string.

(** Values of type [unknown] (arguments, results, payloads, source text). *)
Definition Value := string.

(** [undefined], and the [DataCloneError] that [postMessage] throws. *)
Definition undefinedValue : Value := "undefined".
Definition dataCloneError : Value := "DataCloneError".

(** The structured clone algorithm that [postMessage] runs on its message:
    [clones v] tells whether it accepts the value [v]; it rejects functions,
    proxies and the like, and [postMessage] then throws a [DataCloneError]
    and posts nothing.  [undefined] is accepted, and so is the
    [DataCloneError], a [DOMException], which is serializable. *)
Record StructuredClone := {
  clones : Value -> bool;
  clones_undefined : clones undefinedValue = true;
  clones_dataCloneError : clones dataCloneError = true
}.

Inductive MessageType :=
| Execute | installScript | Exit | Start | Log | DependencyInstalled | Data.

#[global] Instance MessageType_eq_dec : EqDecision MessageType.
Proof. solve_decision. Defined.

(** [MessageDataInstall] *)
Record MessageDataInstall := {
  cdnUrl : string;
  variables : list (string * Value);
  functions : list (string * Value);
  cdnInstallation : Value;
  postInstallTasks : list (string * Value * Value)   (* title, entryPoint, args *)
}.

Inductive Args :=
| ArgsValue (v : Value)
| ArgsInstall (i : MessageDataInstall).

(** [MessageDataExecute | MessageDataData | MessageDataExit] *)
Inductive MessageData :=
| DataExecute (taskId : TaskId) (workerId : WorkerId) (entryPoint : Value) (args : Args)
| DataExit (taskId : TaskId) (workerId : WorkerId) (error : bool) (result : Value)
| DataData (taskId : TaskId) (workerId : WorkerId) (rest : list (string * Value)).

Record MessageEventData := {
  type : MessageType;
  data : MessageData
}.

(** [message.data.taskId] *)
Definition data_taskId (d : MessageData) : TaskId :=
  match d with
  | DataExecute t _ _ _ => t
  | DataExit t _ _ _ => t
  | DataData t _ _ => t
  end.

(** ** The in-worker entry point *)

(** What the call [entryPoint({args, taskId, workerScope, context})] does, as
    seen from [entryPointWorker]. *)
Inductive EntryPointResult :=
| Returns (result : Value)          (* a value that is not a Promise *)
| Throws (e : Value)                (* the call throws *)
| Resolves (result : Value)         (* a Promise that is fulfilled *)
| Rejects (e : Value)               (* a Promise that is rejected *)
| NeverSettles.                     (* a Promise that stays pending *)

Inductive ContextCall :=
| CtxInfo (text : Value) (json : Value)             (* context.info(text, json) *)
| CtxSendData (consumerData : list (string * Value)). (* context.sendData(data) *)

Record EntryPointRun := {
  builds : bool;                    (* [new Function(data.entryPoint)()] does not throw *)
  calls : list ContextCall;         (* calls made on [context] while running *)
  outcome : EntryPointResult
}.

Definition contextMessage (taskId : TaskId) (workerId : WorkerId) (c : ContextCall)
  : MessageEventData :=
  match c with
  | CtxInfo text json =>
      {| type := Log;
         data := DataData taskId workerId
                   [("logLevel", "info"); ("text", text); ("json", json)] |}
  | CtxSendData consumerData =>
      {| type := Data; data := DataData taskId workerId consumerData |}
  end.

Definition exitMessage (taskId : TaskId) (workerId : WorkerId) (error : bool) (result : Value)
  : MessageEventData :=
  {| type := Exit; data := DataExit taskId workerId error result |}.

(** Can the message of a call on [context] be cloned?  [sendData] posts
    [{...consumerData, taskId, workerId}], in which the two ids replace the
    members of [consumerData] of these names.  When the message cannot be
    cloned nothing is posted and the call throws into the entry point;
    what the entry point makes of it is part of its [outcome]. *)
Definition cloneableCall (clone : StructuredClone) (c : ContextCall) : bool :=
  match c with
  | CtxInfo text json => clones clone text && clones clone json
  | CtxSendData consumerData =>
      forallb (fun member => bool_decide (fst member = "taskId")
                             || bool_decide (fst member = "workerId")
                             || clones clone (snd member)) consumerData
  end.

(** The [postMessage] of an [Exit] that reports an error: it is in a
    [catch] block or a [catch] callback, so when it throws nothing is
    posted. *)
Definition postErrorExit (clone : StructuredClone) (taskId : TaskId) (workerId : WorkerId)
  (e : Value) : list MessageEventData :=
  if clones clone e then [exitMessage taskId workerId true e] else [].

(** The [postMessage] of an [Exit] that reports a result: it is in the [try]
    block, or in the [then] callback that precedes [catch], so when it
    throws the [DataCloneError] is reported as the error of the task. *)
Definition postResultExit (clone : StructuredClone) (taskId : TaskId) (workerId : WorkerId)
  (result : Value) : list MessageEventData :=
  if clones clone result then [exitMessage taskId workerId false result]
  else postErrorExit clone taskId workerId dataCloneError.

(** [entryPointWorker(messageEvent)]: the messages the worker posts, in order. *)
Definition entryPointWorker (clone : StructuredClone) (message : MessageEventData)
  (run : EntryPointRun) : list MessageEventData :=
  if decide (type message = Execute) then
    let taskId := data_taskId (data message) in
    let workerId :=
      match data message with
      | DataExecute _ w _ _ | DataExit _ w _ _ | DataData _ w _ => w
      end in
    if builds run then
      {| type := Start; data := DataData taskId workerId [] |}
      :: map (contextMessage taskId workerId)
             (filter (fun c => cloneableCall clone c = true) (calls run))
      ++ match outcome run with
         | Returns result => postResultExit clone taskId workerId result
         | Throws e => postErrorExit clone taskId workerId e
         | Resolves result => postResultExit clone taskId workerId result
         | Rejects e => postErrorExit clone taskId workerId e
         | NeverSettles => []
         end
    else []
  else [].

(** ** Task channel multiplexer *)

(** rxjs [takeWhile(p, true)]: the elements while [p] holds and the first one
    that fails it. *)
Fixpoint takeWhileInclusive {A} (p : A -> bool) (l : list A) : list A :=
  match l with
  | [] => []
  | x :: r => if p x then x :: takeWhileInclusive p r else [x]
  end.

(** [getTaskChannel$]: the stream a subscriber of the returned channel sees
    when [merged] is what [mergedChannel$] emits from its subscription on. *)
Definition getTaskChannel (taskId : TaskId) (merged : list MessageEventData)
  : list MessageEventData :=
  takeWhileInclusive (fun message => bool_decide (type message <> Exit))
    (filter (fun message => data_taskId (data message) = taskId) merged).

(** ** Orchestrator state *)

(** A [Worker] object, named by the rank of its creation. *)
Definition WorkerRef := nat.

(** [Task] of the environment and [WorkerEnvironment]; [postInstallTasks] is
    an optional constructor argument, hence possibly [undefined]. *)
Record WorkerEnvironment := {
  env_cdnUrl : string;
  env_variables : list (string * Value);
  env_functions : list (string * Value);
  env_cdnInstallation : Value;
  env_postInstallTasks : option (list (string * Value * Value))
}.

(** An entry of [tasksQueue].  Its [channel$] is [getTaskChannel$] of its
    [taskId], so it is not stored. *)
Record QueuedTask := {
  taskId : TaskId;
  targetWorkerId : option WorkerId;      (* [None] is [undefined] *)
  args : Value;
  entryPoint : Value
}.

(** A subscribed [createWorker$] pipeline: it waits for the first [Exit] on
    the channel of worker [inst_worker]; [inst_task] is the task that the
    [map] of [schedule] pushes at that moment ([None] for [reserve]). *)
Record Installing := {
  inst_worker : WorkerRef;
  inst_workerId : WorkerId;
  inst_task : option QueuedTask
}.

(** The subscription made by [pickTask] on the channel of task [sub_taskId];
    [sub_workerId] is the [workerId] captured by the callback. *)
Record ExitSub := {
  sub_taskId : TaskId;
  sub_workerId : WorkerId
}.

Inductive Effect :=
| PostMessage (worker : WorkerRef) (message : MessageEventData)
| Terminate (worker : WorkerRef).

Inductive JsError :=
| TypeError
| RangeError
| Error (message : string).

Record State := {
  poolSize : Z;                                 (* navigator.hardwareConcurrency - 2 *)
  workers : list (WorkerId * WorkerRef);        (* workers$.value *)
  runningTasks : list (WorkerId * TaskId);      (* runningTasks$.value *)
  busyWorkers : list WorkerId;                  (* busyWorkers$.value *)
  tasksQueue : list QueuedTask;
  environment : WorkerEnvironment;
  installing : list Installing;
  exitSubs : list ExitSub;
  spawned : nat;                                (* number of [new Worker(url)] so far *)
  trace : list Effect;
  rng : nat -> N;
  rngPos : nat
}.

Definition set_workers (f : list (WorkerId * WorkerRef) -> list (WorkerId * WorkerRef))
  (s : State) : State :=
  {| poolSize := poolSize s; workers := f (workers s); runningTasks := runningTasks s;
     busyWorkers := busyWorkers s; tasksQueue := tasksQueue s;
     environment := environment s; installing := installing s; exitSubs := exitSubs s;
     spawned := spawned s; trace := trace s; rng := rng s; rngPos := rngPos s |}.

Definition set_runningTasks (f : list (WorkerId * TaskId) -> list (WorkerId * TaskId))
  (s : State) : State :=
  {| poolSize := poolSize s; workers := workers s; runningTasks := f (runningTasks s);
     busyWorkers := busyWorkers s; tasksQueue := tasksQueue s;
     environment := environment s; installing := installing s; exitSubs := exitSubs s;
     spawned := spawned s; trace := trace s; rng := rng s; rngPos := rngPos s |}.

Definition set_busyWorkers (f : list WorkerId -> list WorkerId) (s : State) : State :=
  {| poolSize := poolSize s; workers := workers s; runningTasks := runningTasks s;
     busyWorkers := f (busyWorkers s); tasksQueue := tasksQueue s;
     environment := environment s; installing := installing s; exitSubs := exitSubs s;
     spawned := spawned s; trace := trace s; rng := rng s; rngPos := rngPos s |}.

Definition set_tasksQueue (f : list QueuedTask -> list QueuedTask) (s : State) : State :=
  {| poolSize := poolSize s; workers := workers s; runningTasks := runningTasks s;
     busyWorkers := busyWorkers s; tasksQueue := f (tasksQueue s);
     environment := environment s; installing := installing s; exitSubs := exitSubs s;
     spawned := spawned s; trace := trace s; rng := rng s; rngPos := rngPos s |}.

Definition set_installing (f : list Installing -> list Installing) (s : State) : State :=
  {| poolSize := poolSize s; workers := workers s; runningTasks := runningTasks s;
     busyWorkers := busyWorkers s; tasksQueue := tasksQueue s;
     environment := environment s; installing := f (installing s); exitSubs := exitSubs s;
     spawned := spawned s; trace := trace s; rng := rng s; rngPos := rngPos s |}.

Definition set_exitSubs (f : list ExitSub -> list ExitSub) (s : State) : State :=
  {| poolSize := poolSize s; workers := workers s; runningTasks := runningTasks s;
     busyWorkers := busyWorkers s; tasksQueue := tasksQueue s;
     environment := environment s; installing := installing s; exitSubs := f (exitSubs s);
     spawned := spawned s; trace := trace s; rng := rng s; rngPos := rngPos s |}.

Definition set_spawned (f : nat -> nat) (s : State) : State :=
  {| poolSize := poolSize s; workers := workers s; runningTasks := runningTasks s;
     busyWorkers := busyWorkers s; tasksQueue := tasksQueue s;
     environment := environment s; installing := installing s; exitSubs := exitSubs s;
     spawned := f (spawned s); trace := trace s; rng := rng s; rngPos := rngPos s |}.

Definition set_trace (f : list Effect -> list Effect) (s : State) : State :=
  {| poolSize := poolSize s; workers := workers s; runningTasks := runningTasks s;
     busyWorkers := busyWorkers s; tasksQueue := tasksQueue s;
     environment := environment s; installing := installing s; exitSubs := exitSubs s;
     spawned := spawned s; trace := f (trace s); rng := rng s; rngPos := rngPos s |}.

Definition set_rngPos (f : nat -> nat) (s : State) : State :=
  {| poolSize := poolSize s; workers := workers s; runningTasks := runningTasks s;
     busyWorkers := busyWorkers s; tasksQueue := tasksQueue s;
     environment := environment s; installing := installing s; exitSubs := exitSubs s;
     spawned := spawned s; trace := trace s; rng := rng s; rngPos := f (rngPos s) |}.

(** ** A state and exception monad for the methods *)

Inductive Outcome (A : Type) :=
| Returned (a : A)
| Thrown (e : JsError).
Arguments Returned {A} a.
Arguments Thrown {A} e.

Definition M (A : Type) : Type := State -> State * Outcome A.

Definition ret {A} (a : A) : M A := fun s => (s, Returned a).

Definition bind {A B} (m : M A) (k : A -> M B) : M B :=
  fun s =>
    match m s with
    | (s', Returned a) => k a s'
    | (s', Thrown e) => (s', Thrown e)
    end.

Definition throw {A} (e : JsError) : M A := fun s => (s, Thrown e).

Definition gets {A} (f : State -> A) : M A := fun s => (s, Returned (f s)).

Definition modify (f : State -> State) : M unit := fun s => (f s, Returned tt).

(** An exception raised inside a subscriber callback does not reach the
    caller of [next] or [subscribe]: rxjs reports it out of band.  (Whether
    the subscription whose callback threw stays subscribed depends on the
    rxjs version; it is kept here.  The callback that completes an
    installation does not throw; the release handler throws only when it is
    called for a worker id that is a name of [Object.prototype], see
    [installed_returns] and [workerReleased_returns].) *)
Definition unhandled {A} (m : M A) : M unit :=
  fun s => (fst (m s), Returned tt).

Declare Scope js_scope.
Delimit Scope js_scope with js.
Notation "'let*' x ':=' m 'in' k" := (bind m (fun x => k))
  (at level 10, x name, m at level 100, k at level 200) : js_scope.
Notation "m ';;' k" := (bind m (fun _ => k))
  (at level 100, k at level 200, right associativity) : js_scope.
Local Open Scope js_scope.

(** The state reached by a computation, whatever its outcome. *)
Definition exec {A} (m : M A) (s : State) : State := fst (m s).

(** [Math.floor(Math.random() * 1e6)] *)
Definition random : M N :=
  fun s => (set_rngPos S s, Returned (rng s (rngPos s) mod 1000000)%N).

(** [worker.postMessage(message)], for a message that can be cloned. *)
Definition postMessage (worker : WorkerRef) (message : MessageEventData) : M unit :=
  modify (set_trace (fun t => t ++ [PostMessage worker message])).

(** ** Helpers for JavaScript idioms *)

(** Truthiness of a value of type [string | undefined]. *)
Definition truthy (x : option string) : bool :=
  match x with
  | None => false
  | Some x => bool_decide (x <> "")
  end.

(** The own property [key] of an object used as a map. *)
Fixpoint lookupWorker (key : WorkerId) (o : list (WorkerId * WorkerRef)) : option WorkerRef :=
  match o with
  | [] => None
  | (k, v) :: r => if decide (k = key) then Some v else lookupWorker key r
  end.

(** [{...object, [key]: value}]: an existing key keeps its place. *)
Fixpoint insertWorker (key : WorkerId) (value : WorkerRef) (o : list (WorkerId * WorkerRef))
  : list (WorkerId * WorkerRef) :=
  match o with
  | [] => [(key, value)]
  | (k, v) :: r =>
      if decide (k = key) then (k, value) :: r else (k, v) :: insertWorker key value r
  end.

(** The names of the properties that a plain object inherits from
    [Object.prototype].  Each of them is a function, but for [__proto__],
    which reads as [Object.prototype] itself: a truthy value that has no
    member [worker]. *)
Definition objectPrototype : list string :=
  ["constructor"; "__defineGetter__"; "__defineSetter__"; "hasOwnProperty";
   "__lookupGetter__"; "__lookupSetter__"; "isPrototypeOf"; "propertyIsEnumerable";
   "toString"; "valueOf"; "__proto__"; "toLocaleString"].

(** What [workers$.value[key]] reads: the entry of a worker, an inherited
    property, or [undefined]. *)
Inductive Member :=
| Entry (worker : WorkerRef)
| Inherited
| Undefined.

(** [object[key]] on the plain object [workers$.value]. *)
Definition getMember (key : WorkerId) (o : list (WorkerId * WorkerRef)) : Member :=
  match lookupWorker key o with
  | Some worker => Entry worker
  | None => if decide (key ∈ objectPrototype) then Inherited else Undefined
  end.

(** ** Methods of [WorkersFactory] *)

(** The test of the [if] that opens [pickTask]:
    [task.targetWorkerId == undefined || task.targetWorkerId == workerId]. *)
Definition guardEligible (workerId : WorkerId) (task : QueuedTask) : Prop :=
  match targetWorkerId task with
  | None => True
  | Some target => target = workerId
  end.

#[global] Instance guardEligible_dec workerId task : Decision (guardEligible workerId task).
Proof. unfold guardEligible. destruct (targetWorkerId task); apply _. Defined.

(** The predicate of the [find] of [pickTask]:
    [t.targetWorkerId ? t.targetWorkerId === workerId : true]. *)
Definition findEligible (workerId : WorkerId) (t : QueuedTask) : Prop :=
  if truthy (targetWorkerId t) then targetWorkerId t = Some workerId else True.

#[global] Instance findEligible_dec workerId t : Decision (findEligible workerId t).
Proof. unfold findEligible. destruct (truthy (targetWorkerId t)); apply _. Defined.

(** [array.find(p)] *)
Definition find {A} (P : A -> Prop) `{forall x, Decision (P x)} (l : list A) : option A :=
  snd <$> list_find P l.

Definition executeMessage (t : QueuedTask) (workerId : WorkerId) : MessageEventData :=
  {| type := Execute;
     data := DataExecute (taskId t) workerId ("return " +:+ entryPoint t)
               (ArgsValue (args t)) |}.

(** [pickTask(workerId, context)] *)
Definition pickTask (workerId : WorkerId) : M unit :=
  let* queue := gets tasksQueue in
  if decide (length (filter (guardEligible workerId) queue) = 0) then ret tt
  else
    modify (set_busyWorkers (fun busy => busy ++ [workerId])) ;;
    match find (findEligible workerId) queue with
    | None => throw TypeError                 (* destructuring of [undefined] *)
    | Some picked =>
        modify (set_tasksQueue (filter (fun t => taskId t <> taskId picked))) ;;
        modify (set_runningTasks (fun running => running ++ [(workerId, taskId picked)])) ;;
        let* registered := gets workers in
        match getMember workerId registered with
        | Undefined => throw TypeError        (* [.worker] of [undefined] *)
        | Entry worker =>
            modify (set_exitSubs (fun subs =>
              subs ++ [{| sub_taskId := taskId picked; sub_workerId := workerId |}])) ;;
            postMessage worker (executeMessage picked workerId)
        | Inherited =>                        (* [worker] is [undefined] *)
            modify (set_exitSubs (fun subs =>
              subs ++ [{| sub_taskId := taskId picked; sub_workerId := workerId |}])) ;;
            throw TypeError                   (* [.postMessage] of [undefined] *)
        end
    end.

(** The [workerReleased$] subscription of the constructor. *)
Definition workerReleased (workerId : WorkerId) (t : TaskId) : M unit :=
  modify (set_busyWorkers (filter (fun wId => wId <> workerId))) ;;
  modify (set_runningTasks (filter (fun task => snd task <> t))) ;;
  pickTask workerId.

(** [createWorker$(context)]: creates the worker and sends it the installer;
    the pipeline it returns is inert until subscribed, and is described by
    the worker and its id. *)
Definition installMessage (env : WorkerEnvironment) (tasks : list (string * Value * Value))
  (t : TaskId) (workerId : WorkerId) : MessageEventData :=
  {| type := Execute;
     data := DataExecute t workerId "return entryPointInstall"
       (ArgsInstall
          {| cdnUrl := env_cdnUrl env;
             variables := env_variables env;
             functions := map (fun f => (fst f, "return " +:+ snd f)) (env_functions env);
             cdnInstallation := env_cdnInstallation env;
             postInstallTasks :=
               map (fun task => match task with
                                | (title, ep, a) => (title, "return " +:+ ep, a)
                                end) tasks |}) |}.

Definition createWorker : M (WorkerRef * WorkerId) :=
  let* r := random in
  let workerId := "w" +:+ pretty r in
  let* worker := gets spawned in
  modify (set_spawned S) ;;                       (* new Worker(url) *)
  let* r' := random in
  let t := "t" +:+ pretty r' in
  let* env := gets environment in
  match env_postInstallTasks env with
  | None => throw TypeError                       (* [.map] of [undefined] *)
  | Some tasks =>
      postMessage worker (installMessage env tasks t workerId) ;;
      ret (worker, workerId)
  end.

(** What [getIdleWorkerOrCreate$] returns: [of({workerId, ...})], the
    pipeline of [createWorker$], or [undefined]. *)
Inductive WorkerSource :=
| OfIdle (workerId : WorkerId)
| Creating (worker : WorkerRef) (workerId : WorkerId).

(** [getIdleWorkerOrCreate$(context)] *)
Definition getIdleWorkerOrCreate : M (option WorkerSource) :=
  let* registered := gets workers in
  let* busy := gets busyWorkers in
  let idleWorkerId := find (fun workerId => workerId ∉ busy) (map fst registered) in
  if truthy idleWorkerId then
    ret (OfIdle <$> idleWorkerId)
  else
    let* size := gets poolSize in
    if decide (Z.of_nat (length (map fst registered)) < size)%Z then
      let* created := createWorker in
      ret (Some (Creating (fst created) (snd created)))
    else ret None.

(** [tasksQueue.push(task)] *)
Definition pushTask (task : QueuedTask) : M unit :=
  modify (set_tasksQueue (fun queue => queue ++ [task])).

(** Subscribing to a [createWorker$] pipeline. *)
Definition subscribeInstall (worker : WorkerRef) (workerId : WorkerId)
  (task : option QueuedTask) : M unit :=
  modify (set_installing (fun l =>
    l ++ [{| inst_worker := worker; inst_workerId := workerId; inst_task := task |}])).

(** [schedule({title, entryPoint, args, targetWorkerId, context})]; the
    result stands for the returned [taskChannel$], which is
    [getTaskChannel$] of that task id.  Both [if]s of the source test
    [targetWorkerId &&] first, so an empty string goes the way of
    [undefined]. *)
Definition schedule (entryPoint : Value) (args : Value) (targetWorkerId : option WorkerId)
  : M TaskId :=
  let* r := random in
  let taskId := "t" +:+ pretty r in
  let* registered := gets workers in
  match (if truthy targetWorkerId then targetWorkerId else None) with
  | Some target =>
      match getMember target registered with
      | Undefined => throw (Error "Provided workerId not known")
      | Entry _ | Inherited =>
          pushTask {| taskId := taskId; targetWorkerId := Some target;
                      args := args; entryPoint := entryPoint |} ;;
          let* busy := gets busyWorkers in
          (if decide (target ∈ busy) then ret tt else pickTask target) ;;
          ret taskId
      end
  | None =>
      let task := {| taskId := taskId; targetWorkerId := None;
                     args := args; entryPoint := entryPoint |} in
      let* worker := getIdleWorkerOrCreate in
      match worker with
      | None => pushTask task ;; ret taskId
      | Some (OfIdle workerId) =>
          unhandled (pushTask task ;; pickTask workerId) ;;
          ret taskId
      | Some (Creating worker workerId) =>
          subscribeInstall worker workerId (Some task) ;;
          ret taskId
      end
  end.

(** [new Array(workersCount).fill(undefined).map(() => createWorker$(...))] *)
Fixpoint createWorkers (n : nat) : M (list (WorkerRef * WorkerId)) :=
  match n with
  | O => ret []
  | S n' =>
      let* created := createWorker in
      let* others := createWorkers n' in
      ret (created :: others)
  end.

Fixpoint subscribeAll (l : list (WorkerRef * WorkerId)) : M unit :=
  match l with
  | [] => ret tt
  | (worker, workerId) :: r => subscribeInstall worker workerId None ;; subscribeAll r
  end.

(** [reserve({workersCount})], with the returned [forkJoin] subscribed at
    once, as the callers of this repository do.  [new Array(n)] throws a
    [RangeError] unless [n] is an integer of [0 .. 2^32 - 1]. *)
Definition reserve (workersCount : Z) : M unit :=
  if decide (0 <= workersCount < 2 ^ 32)%Z then
    let* created := createWorkers (Z.to_nat workersCount) in
    subscribeAll created
  else throw RangeError.

(** [terminate()] *)
Definition terminate : M unit :=
  let* registered := gets workers in
  modify (set_trace (fun t => t ++ map (fun entry => Terminate (snd entry)) registered)).

(** ** Event handlers *)

(** What the [createWorker$] pipeline does on the first [Exit] of its worker
    channel: the second [tap], then the [map] of [schedule] if any. *)
Definition installed (i : Installing) : M unit :=
  modify (set_workers (insertWorker (inst_workerId i) (inst_worker i))) ;;
  match inst_task i with
  | None => ret tt
  | Some task => pushTask task ;; pickTask (inst_workerId i)
  end.

Fixpoint forEach {A} (f : A -> M unit) (l : list A) : M unit :=
  match l with
  | [] => ret tt
  | x :: r => unhandled (f x) ;; forEach f r
  end.

(** [workerChannel$.next(data)] for the channel of [worker].  The first
    [tap] of the pipeline forwards CDN events to [cdnEvent$], which is not
    part of the pool state. *)
Definition workerChannelNext (worker : WorkerRef) (message : MessageEventData) : M unit :=
  if decide (type message = Exit) then
    let* pending := gets installing in
    modify (set_installing (filter (fun i => inst_worker i <> worker))) ;;
    forEach installed (filter (fun i => inst_worker i = worker) pending)
  else ret tt.

(** Does the subscription of [pickTask] let [message] through?  Its channel
    keeps the messages of its task, and the subscription those of type
    [Exit]; the channel completes with that message. *)
Definition fires (message : MessageEventData) (sub : ExitSub) : Prop :=
  data_taskId (data message) = sub_taskId sub /\ type message = Exit.

#[global] Instance fires_dec message sub : Decision (fires message sub).
Proof. unfold fires. apply _. Defined.

(** [mergedChannel$.next(data)]: the subscribers present when [next] is
    called are served in the order of their subscription. *)
Definition mergedChannelNext (message : MessageEventData) : M unit :=
  let* subs := gets exitSubs in
  modify (set_exitSubs (filter (fun sub => ~ fires message sub))) ;;
  forEach (fun sub => workerReleased (sub_workerId sub) (data_taskId (data message)))
          (filter (fires message) subs).

(** [worker.onmessage], for the worker [worker]. *)
Definition onmessage (worker : WorkerRef) (message : MessageEventData) (s : State) : State :=
  exec (workerChannelNext worker message ;; mergedChannelNext message) s.

(** The messages of a list, received in order from one worker. *)
Definition receive (worker : WorkerRef) (messages : list MessageEventData) (s : State)
  : State :=
  foldl (fun s message => onmessage worker message s) s messages.

(** [new WorkersFactory({...})] on a machine where
    [navigator.hardwareConcurrency - 2] is [size]. *)
Definition newWorkersFactory (size : Z) (env : WorkerEnvironment) (oracle : nat -> N) : State :=
  {| poolSize := size; workers := []; runningTasks := []; busyWorkers := [];
     tasksQueue := []; environment := env; installing := []; exitSubs := [];
     spawned := 0; trace := []; rng := oracle; rngPos := 0 |}.

(** ** Derived notions used in the statements *)

(** The state [pickTask] leaves when it sends [picked] to the worker
    registered as [workerId]. *)
Definition dispatched (workerId : WorkerId) (picked : QueuedTask) (worker : WorkerRef)
  (s : State) : State :=
  {| poolSize := poolSize s;
     workers := workers s;
     runningTasks := runningTasks s ++ [(workerId, taskId picked)];
     busyWorkers := busyWorkers s ++ [workerId];
     tasksQueue := filter (fun t => taskId t <> taskId picked) (tasksQueue s);
     environment := environment s;
     installing := installing s;
     exitSubs := exitSubs s ++ [{| sub_taskId := taskId picked; sub_workerId := workerId |}];
     spawned := spawned s;
     trace := trace s ++ [PostMessage worker (executeMessage picked workerId)];
     rng := rng s;
     rngPos := rngPos s |}.

(** The state after [createWorker$] in a pool whose environment has its
    post-install tasks. *)
Definition created (tasks : list (string * Value * Value)) (s : State) : State :=
  let workerId := "w" +:+ pretty (rng s (rngPos s) mod 1000000)%N in
  let t := "t" +:+ pretty (rng s (S (rngPos s)) mod 1000000)%N in
  {| poolSize := poolSize s; workers := workers s; runningTasks := runningTasks s;
     busyWorkers := busyWorkers s; tasksQueue := tasksQueue s;
     environment := environment s; installing := installing s; exitSubs := exitSubs s;
     spawned := S (spawned s);
     trace := trace s ++ [PostMessage (spawned s) (installMessage (environment s) tasks t workerId)];
     rng := rng s; rngPos := S (S (rngPos s)) |}.

(** The pipeline entry [subscribeAll] adds for a created worker. *)
Definition reserved (c : WorkerRef * WorkerId) : Installing :=
  {| inst_worker := fst c; inst_workerId := snd c; inst_task := None |}.

(** The installer message of entry [i], for some task id. *)
Definition installerSent (env : WorkerEnvironment) (tasks : list (string * Value * Value))
  (i : Installing) (effect : Effect) : Prop :=
  exists t, effect = PostMessage (inst_worker i) (installMessage env tasks t (inst_workerId i)).

(** One [Exit] from the worker of each pipeline of [news], in order. *)
Definition installExits (exitOf : Installing -> MessageEventData) (news : list Installing)
  (s : State) : State :=
  foldl (fun s i => onmessage (inst_worker i) (exitOf i) s) s news.

(** The second [tap] of each pipeline of [news], in order. *)
Definition registerAll (news : list Installing) (registered : list (WorkerId * WorkerRef))
  : list (WorkerId * WorkerRef) :=
  foldl (fun o i => insertWorker (inst_workerId i) (inst_worker i) o) registered news.

(** What every state of a run satisfies; the hypotheses of the statements
    above on the queue and on the subscriptions are instances of it. *)
Record wellFormed (s : State) : Prop := {
  wf_pins : Forall (fun t => targetWorkerId t <> Some "") (tasksQueue s);
  wf_subs : Forall (fun sub => is_Some (lookupWorker (sub_workerId sub) (workers s)) \/
                              sub_workerId sub ∈ objectPrototype)
                   (exitSubs s);
  wf_refs : Forall (fun i => inst_worker i < spawned s) (installing s);
  wf_waiting : Forall (fun i => forall t, inst_task i = Some t -> targetWorkerId t = None)
                      (installing s)
}.

(** One call of a public method, or one message from a worker. *)
Inductive step : State -> State -> Prop :=
| step_reserve workersCount s : step s (exec (reserve workersCount) s)
| step_schedule entryPoint args target s : step s (exec (schedule entryPoint args target) s)
| step_pickTask workerId s : step s (exec (pickTask workerId) s)
| step_terminate s : step s (exec terminate s)
| step_onmessage worker message s : step s (onmessage worker message s).

Inductive reachable : State -> Prop :=
| reachable_new size env oracle : reachable (newWorkersFactory size env oracle)
| reachable_step s s' : reachable s -> step s s' -> reachable s'.

(** ** Sample data *)

Definition sampleEnvironment : WorkerEnvironment :=
  {| env_cdnUrl := "cdn.js"; env_variables := []; env_functions := [];
     env_cdnInstallation := "graph"; env_postInstallTasks := Some [] |}.

(** A pool at rest with the given registry, busy set, index and queue. *)
Definition samplePool (size : Z) (registered : list (WorkerId * WorkerRef))
  (busy : list WorkerId) (running : list (WorkerId * TaskId)) (queue : list QueuedTask)
  (subs : list ExitSub) : State :=
  {| poolSize := size; workers := registered; runningTasks := running;
     busyWorkers := busy; tasksQueue := queue; environment := sampleEnvironment;
     installing := []; exitSubs := subs; spawned := length registered; trace := [];
     rng := fun i => N.of_nat i; rngPos := 0 |}.

Definition sampleTask (t : TaskId) (target : option WorkerId) : QueuedTask :=
  {| taskId := t; targetWorkerId := target; args := "args"; entryPoint := "f" |}.

(** A value that cannot be cloned, and a structured clone that accepts every
    other value. *)
Definition aFunction : Value := "function () {}".

Definition sampleClone : StructuredClone :=
  {| clones := fun v => bool_decide (v <> aFunction);
     clones_undefined := eq_refl;
     clones_dataCloneError := eq_refl |}.

(** ** Runs of a client *)

(** What can happen to a pool: a call of one of the methods a client uses,
    or a message from a worker. *)
Inductive Call :=
| CallReserve (workersCount : Z)
| CallSchedule (entryPoint args : Value) (targetWorkerId : option WorkerId)
| CallTerminate
| WorkerMessage (worker : WorkerRef) (message : MessageEventData).

Definition perform (c : Call) (s : State) : State :=
  match c with
  | CallReserve workersCount => exec (reserve workersCount) s
  | CallSchedule entryPoint args targetWorkerId =>
      exec (schedule entryPoint args targetWorkerId) s
  | CallTerminate => exec terminate s
  | WorkerMessage worker message => onmessage worker message s
  end.

Definition performAll (cs : list Call) (s : State) : State :=
  foldl (fun s c => perform c s) s cs.

Definition isReserve (c : Call) : bool :=
  match c with CallReserve _ => true | _ => false end.

(** A call that does not name, as the target of a task, a property that the
    workers map inherits from [Object.prototype]. *)
Definition plainTarget (c : Call) : Prop :=
  match c with
  | CallSchedule _ _ (Some target) => target ∉ objectPrototype
  | _ => True
  end.

(** A pool without capacity in which nothing was created or sent. *)
Definition inert (s : State) : Prop :=
  (poolSize s <= 0)%Z /\ workers s = [] /\ installing s = [] /\ trace s = [] /\
  spawned s = 0.

(** A computation that leaves [workers$.value] alone. *)
Definition keepsWorkers {A} (m : M A) : Prop :=
  forall s, workers (exec m s) = workers s.

(** A computation that only adds entries to [workers$.value], by the
    second [tap] of some [createWorker$] pipelines. *)
Definition growsWorkers {A} (m : M A) : Prop :=
  forall s, exists news, workers (exec m s) = registerAll news (workers s).

(** ** The installer run inside a worker, [entryPointInstall] *)

(** The global scope [self] of a worker: the names of the globals that
    were assigned (ordinary, writable ones) and their values.  A global that
    was never assigned, or was deleted, reads as [undefined]; a deletion is
    the assignment of [undefined]. *)
Abbreviation Scope := (gmap string Value).

(** A [TypeError], as a value. *)
Definition typeErrorValue : Value := "TypeError".

(** [new Function(source)()], for a source [return <expression>] as
    [createWorker$] builds it from a function or an entry point: the call
    yields the value of the expression or throws, and assigns no global. *)
Inductive Evaluated :=
| Evaluates (v : Value)
| Raises (e : Value).

Inductive Settlement :=
| Fulfilled
| Rejected (e : Value)
| Pending.

(** [cdn.install(inputs)] or [cdn.installLoadingGraph(inputs)]: the call
    throws, or returns a promise; the events are those passed to [onEvent],
    while the call runs and afterwards; [defines] are the globals the
    installation has set when its promise is fulfilled. *)
Inductive CdnInstall :=
| InstallThrows (e : Value)
| InstallPromise (during later : list Value) (defines : list (string * Value))
                 (settles : Settlement).

(** The call of a post-install entry point: it throws, or returns a value,
    which is a promise ([Some]) or not. *)
Inductive TaskOutcome :=
| TaskThrows (e : Value)
| TaskReturns (promise : option Settlement).

Record TaskRun := {
  task_calls : list ContextCall;            (* calls on [context] during the call *)
  task_defines : list (string * Value);     (* globals set during the call *)
  task_outcome : TaskOutcome
}.

(** What is outside [entryPointInstall]: the loader script, the CDN client
    and the code of the functions and tasks of the environment. *)
Record InstallWorld := {
  (** the truthiness of a value *)
  isTruthy : Value -> bool;
  (** [value.Client] is an object, so that the assignment
      [value.Client.HostName = ...] does not throw *)
  hasClient : Value -> bool;
  (** [self.importScripts(url)] throws or runs the script, which sets globals *)
  importScripts : string -> Value + list (string * Value);
  (** [cdnInstallation.customInstallers] is an array *)
  hasCustomInstallers : Value -> bool;
  cdnInstall : Value -> CdnInstall;
  evaluate : Scope -> Value -> Evaluated;
  runTask : Scope -> Value -> Value -> TaskRun    (* entry point, args *)
}.

(** [self[id] = value] for each pair, in order. *)
Definition assignAll (l : list (string * Value)) (self : Scope) : Scope :=
  foldl (fun scope p => <[fst p := snd p]> scope) self l.

(** [input.context.info(text)] *)
Definition info (text : Value) : ContextCall := CtxInfo text undefinedValue.

(** [onEvent(cdnEvent)] *)
Definition onEvent (cdnEvent : Value) : ContextCall :=
  CtxSendData [("type", "CdnEvent"); ("event", cdnEvent)].

(** [input.args.functions.forEach((f) => { self[f.id] = new Function(f.target)() })];
    the result holds the error that interrupted the loop, if any. *)
Fixpoint injectFunctions (world : InstallWorld) (fs : list (string * Value)) (self : Scope)
  : Scope * option Value :=
  match fs with
  | [] => (self, None)
  | (id, target) :: rest =>
      match evaluate world self target with
      | Raises e => (self, Some e)
      | Evaluates v => injectFunctions world rest (<[id := v]> self)
      end
  end.

(** The first [then] callback: the functions, then the variables. *)
Definition inject (world : InstallWorld) (input : MessageDataInstall) (self : Scope)
  : Scope * option Value :=
  match injectFunctions world (functions input) self with
  | (self', Some e) => (self', Some e)
  | (self', None) => (assignAll (variables input) self', None)
  end.

(** The [for] loop of the second [then] callback.  The value an entry point
    returns is dropped, so the loop goes on unless the call throws. *)
Fixpoint postInstall (world : InstallWorld) (tasks : list (string * Value * Value))
  (self : Scope) (calls : list ContextCall) : Scope * list ContextCall * option Value :=
  match tasks with
  | [] => (self, calls, None)
  | (title, entryPoint, args) :: rest =>
      let calls := calls ++ [info ("Start post-install task '" +:+ title +:+ "'")] in
      match evaluate world self entryPoint with
      | Raises e => (self, calls, Some e)
      | Evaluates f =>
          let r := runTask world self f args in
          let calls := calls ++ task_calls r in
          let self := assignAll (task_defines r) self in
          match task_outcome r with
          | TaskThrows e => (self, calls, Some e)
          | TaskReturns _ => postInstall world rest self calls
          end
      end
  end.

Definition installRun (calls : list ContextCall) (outcome : EntryPointResult)
  : EntryPointRun :=
  {| builds := true; calls := calls; outcome := outcome |}.

(** The test [if (self['@youwol/cdn-client'])]. *)
Definition clientInstalled (world : InstallWorld) (self : Scope) : bool :=
  match self !! "@youwol/cdn-client" with
  | Some cdn => isTruthy world cdn
  | None => false
  end.

(** [cdn.Client.HostName = window.location.origin] does not throw, for
    [cdn = self['@youwol/cdn-client']]. *)
Definition clientReady (world : InstallWorld) (self : Scope) : bool :=
  match self !! "@youwol/cdn-client" with
  | Some cdn => hasClient world cdn
  | None => false
  end.

(** [entryPointInstall(input)] run in a worker whose scope is [self]: the
    scope it leaves, and what [entryPointWorker] sees of the call. *)
Definition entryPointInstall (world : InstallWorld) (input : MessageDataInstall)
  (self : Scope) : Scope * EntryPointRun :=
  if clientInstalled world self then
    (self, installRun [] (Resolves undefinedValue))
  else
    match importScripts world (cdnUrl input) with
    | inl e => (self, installRun [] (Throws e))
    | inr globals =>
        let self := assignAll globals self in
        if clientReady world self then
          if hasCustomInstallers world (cdnInstallation input) then
            match cdnInstall world (cdnInstallation input) with
            | InstallThrows e => (self, installRun [] (Throws e))
            | InstallPromise during later defines settles =>
                let calls := (onEvent <$> during) ++ [info "Start install"]
                             ++ (onEvent <$> later) in
                match settles with
                | Pending => (self, installRun calls NeverSettles)
                | Rejected e => (self, installRun calls (Rejects e))
                | Fulfilled =>
                    match inject world input (assignAll defines self) with
                    | (self, Some e) => (self, installRun calls (Rejects e))
                    | (self, None) =>
                        match postInstall world (postInstallTasks input) self
                                (calls ++ [info "Dependencies installation done"]) with
                        | (self, calls, Some e) => (self, installRun calls (Rejects e))
                        | (self, calls, None) =>
                            (self,
                             installRun
                               (calls ++ [info "Post install tasks done";
                                          CtxSendData [("type", "installEvent");
                                                       ("value", "install done")]])
                               (Resolves undefinedValue))
                        end
                    end
                end
            end
          else (self, installRun [] (Throws typeErrorValue))
        else (self, installRun [] (Throws typeErrorValue))
    end.

(** ** Reading the payload of a message *)

(** [object[key]] on an object literal given by its entries. *)
Fixpoint field (key : string) (entries : list (string * Value)) : option Value :=
  match entries with
  | [] => None
  | (k, v) :: rest => if decide (k = key) then Some v else field key rest
  end.

(** [data[key]] for a payload.  A [Start], [Log] or [Data] payload is the
    object [{...rest, taskId, workerId}]. *)
Definition dataField (key : string) (d : MessageData) : option Value :=
  match d with
  | DataExecute t w entryPoint _ =>
      if decide (key = "taskId") then Some t
      else if decide (key = "workerId") then Some w
      else if decide (key = "entryPoint") then Some entryPoint
      else None
  | DataExit t w error result =>
      if decide (key = "taskId") then Some t
      else if decide (key = "workerId") then Some w
      else if decide (key = "error") then Some (if error then "true" else "false")
      else if decide (key = "result") then Some result
      else None
  | DataData t w rest =>
      if decide (key = "taskId") then Some t
      else if decide (key = "workerId") then Some w
      else field key rest
  end.

(** [data.error], read as a condition.  The [Exit] messages of a worker
    carry a [MessageDataExit]; on another payload the member is taken to be
    absent. *)
Definition data_error (d : MessageData) : bool :=
  match d with
  | DataExit _ _ error _ => error
  | _ => false
  end.

(** ** The [Process] of a task *)

(** The calls [getTaskChannel$] makes on [exposedProcess]. *)
Inductive ProcessCall :=
| ProcessStart                                  (* exposedProcess.start() *)
| ProcessFail (result : option Value)           (* exposedProcess.fail(data.result) *)
| ProcessSucceed                                (* exposedProcess.succeed() *)
| ProcessLog (text : option Value).             (* exposedProcess.log(data.text) *)

#[global] Instance ProcessCall_eq_dec : EqDecision ProcessCall.
Proof. solve_decision. Defined.

(** The three subscriptions [getTaskChannel$] makes on the channel it
    returns, served in that order for each message of the channel:
    [Start] with [take(1)], [Exit] with [take(1)], and [Log]. *)
Fixpoint processCalls (started exited : bool) (channel : list MessageEventData)
  : list ProcessCall :=
  match channel with
  | [] => []
  | message :: rest =>
      match type message with
      | Start =>
          if started then processCalls true exited rest
          else ProcessStart :: processCalls true exited rest
      | Exit =>
          if exited then processCalls started true rest
          else (if data_error (data message)
                then ProcessFail (dataField "result" (data message))
                else ProcessSucceed) :: processCalls started true rest
      | Log => ProcessLog (dataField "text" (data message)) :: processCalls started exited rest
      | _ => processCalls started exited rest
      end
  end.

(** What the [Process] of task [taskId] is told when [merged] is emitted by
    [mergedChannel$] after the call of [getTaskChannel$]. *)
Definition processNotifications (taskId : TaskId) (merged : list MessageEventData)
  : list ProcessCall :=
  processCalls false false (getTaskChannel taskId merged).

Definition isTerminal (c : ProcessCall) : bool :=
  match c with
  | ProcessFail _ | ProcessSucceed => true
  | _ => false
  end.

(** ** Dispatch of the messages of a task to its consumers ([utils.ts]) *)

(** What [dispatchWorkerMessage] does to its sinks. *)
Inductive Sink :=
| RawLogNext (level : string) (message : string)    (* rawLog$.next({level, message}) *)
| ListenerEmit (userData : Value).                  (* workerListener.emit(userData) *)

(** A member in a template literal: [undefined] prints as such. *)
Definition printed (v : option Value) : string := default "undefined" v.

Section Utils.

(** [value[key]], a [TypeError] when the value is [undefined] or [null],
    and the truthiness of a value of type [unknown]. *)
Variable member : Value -> string -> Outcome (option Value).
Variable truthyValue : Value -> bool.

(** [isPythonStdOutMessage]: [undefined], or [{workerId, message}]. *)
Definition isPythonStdOutMessage (message : MessageEventData)
  : Outcome (option (option Value * option Value)) :=
  if decide (type message <> Data) then Returned None
  else if decide (dataField "type" (data message) = Some "PythonStdOut") then
    match dataField "log" (data message) with
    | None => Thrown TypeError                      (* [.message] of [undefined] *)
    | Some log =>
        match member log "message" with
        | Thrown e => Thrown e
        | Returned text => Returned (Some (dataField "workerId" (data message), text))
        end
    end
  else Returned None.

(** [isErrorExitMessage] *)
Definition isErrorExitMessage (message : MessageEventData)
  : Outcome (option (option Value * option Value)) :=
  if decide (type message <> Exit) then Returned None
  else if negb (data_error (data message)) then Returned None
  else
    match dataField "result" (data message) with
    | None => Thrown TypeError
    | Some error =>
        match member error "message" with
        | Thrown e => Thrown e
        | Returned text => Returned (Some (dataField "workerId" (data message), text))
        end
    end.

(** [isUserDataMessage] *)
Definition isUserDataMessage (message : MessageEventData) : option Value :=
  if decide (type message <> Data) then None
  else if decide (dataField "type" (data message) = Some "WorkerData")
  then dataField "data" (data message)
  else None.

(** The end of [dispatchWorkerMessage]; [guarded] tells which of the two
    versions of the file is meant: [if (userData && workerListener)], or
    [if (userData)]. *)
Definition dispatchUserData (guarded : bool) (message : MessageEventData)
  (workerListener : bool) : list Sink * Outcome unit :=
  match isUserDataMessage message with
  | Some userData =>
      if truthyValue userData then
        if workerListener then ([ListenerEmit userData], Returned tt)
        else if guarded then ([], Returned tt)
        else ([], Thrown TypeError)                 (* [.emit] of [undefined] *)
      else ([], Returned tt)
  | None => ([], Returned tt)
  end.

(** [dispatchWorkerMessage(message, rawLog$, workerListener)];
    [workerListener] tells whether a listener is given. *)
Definition dispatchWorkerMessageWith (guarded : bool) (message : MessageEventData)
  (workerListener : bool) : list Sink * Outcome unit :=
  match isPythonStdOutMessage message with
  | Thrown e => ([], Thrown e)
  | Returned (Some (workerId, text)) =>
      ([RawLogNext "info" (printed workerId +:+ ":" +:+ printed text)], Returned tt)
  | Returned None =>
      match isErrorExitMessage message with
      | Thrown e => ([], Thrown e)
      | Returned (Some (workerId, text)) =>
          ([RawLogNext "error" (printed workerId +:+ ":" +:+ printed text)], Returned tt)
      | Returned None => dispatchUserData guarded message workerListener
      end
  end.

(** The version that goes with [workers-factory.ts]. *)
Definition dispatchWorkerMessage := dispatchWorkerMessageWith false.

End Utils.

(** ** Accumulated events ([environment.state.ts], [main-thread]) *)

(** rxjs [scan(f, seed)]: the accumulator after each value. *)
Fixpoint scan {A B} (f : B -> A -> B) (seed : B) (l : list A) : list B :=
  match l with
  | [] => []
  | x :: r => f seed x :: scan f (f seed x) r
  end.

Record CdnEvent := {
  event_id : string;
  event_step : string;
  event_status : string;
  event_text : Value
}.

(** The reducer of [cdnEvents$]. *)
Definition cdnEventsReducer (acc : list CdnEvent) (e : CdnEvent) : list CdnEvent :=
  if decide (event_id e = "reset") then [] else acc ++ [e].

(** [cdnEvents$] for the events sent to [cdnEvent$] so far.  [cdnEvent$]
    is a [ReplaySubject] without bound, so the scan of a subscriber starts
    from the first event whenever it subscribes; the last list is the
    current value of [cdnEvents$]. *)
Definition cdnEvents (events : list CdnEvent) : list (list CdnEvent) :=
  scan cdnEventsReducer [] events.

(** [installLockFile(lockFile)]: what a call sends to [cdnEvent$], where
    [installation] is what the custom installers and [installRequirements]
    of the implementation send there while the installation runs. *)
Definition installLockFile (installation : list CdnEvent) : list CdnEvent :=
  {| event_id := "reset"; event_step := "CdnMessageEvent"; event_status := "None";
     event_text := "Start install" |} :: installation.

(** What [merge(triggerOutputsCollect$, createdOutput$)] emits: [true]
    (the one value the class sends on [triggerOutputsCollect$]), or a view. *)
Inductive OutputSignal :=
| Collect
| Created (view : Value).

(** The reducer behind [createdOutputs$]. *)
Definition outputsReducer (acc : list Value) (e : OutputSignal) : list Value :=
  match e with
  | Collect => []
  | Created view => acc ++ [view]
  end.

(** The values given to [createdOutputs$] for the signals sent so far. *)
Definition createdOutputs (signals : list OutputSignal) : list (list Value) :=
  scan outputsReducer [] signals.

(** [execPythonCode(code, fileSystem)] of the main thread implementation:
    what a call sends to the two subjects, where [views] are the views that
    the Python code creates through [onView]. *)
Definition execPythonCode (views : list Value) : list OutputSignal :=
  Collect :: (Created <$> views).

(** ** Run configurations ([environment.state.ts]) *)

Record RunConfiguration := {
  name : string;
  scriptPath : string;
  parameters : option string
}.

(** The callback of [applyConfigurations], for the parsed content of
    [./configurations] and the selected name: the values given to
    [configurations$] and [selectedConfiguration$]. *)
Definition applyConfigurations (configurations : list RunConfiguration)
  (configurationName : option string) : Outcome (list RunConfiguration * option string) :=
  match find (fun conf => Some (name conf) = configurationName) configurations with
  | Some _ => Returned (configurations, configurationName)
  | None =>
      match configurations with
      | [] => Thrown TypeError                      (* [.name] of [undefined] *)
      | first :: _ => Returned (configurations, Some (name first))
      end
  end.

(** The script [run] executes, for the values of [configurations$] and
    [selectedConfiguration$]. *)
Definition selectedScriptPath (configurations : list RunConfiguration)
  (selectedConfigName : option string) : Outcome string :=
  match find (fun config => Some (name config) = selectedConfigName) configurations with
  | Some selectedConfig => Returned (scriptPath selectedConfig)
  | None => Thrown TypeError                        (* [.scriptPath] of [undefined] *)
  end.

(** The run of [entryPointInstall] gets to the loop over the post-install
    tasks, with scope [self2] and having made the calls [calls2]: the CDN
    client was not there and the loader script defined it, the installation
    has custom installers, its promise was fulfilled, and the functions and
    variables were injected. *)
Definition reachesTasks (world : InstallWorld) (input : MessageDataInstall) (self : Scope)
  (self2 : Scope) (calls2 : list ContextCall) : Prop :=
  exists globals during later defines,
    clientInstalled world self = false /\
    importScripts world (cdnUrl input) = inr globals /\
    clientReady world (assignAll globals self) = true /\
    hasCustomInstallers world (cdnInstallation input) = true /\
    cdnInstall world (cdnInstallation input) = InstallPromise during later defines Fulfilled /\
    inject world input (assignAll defines (assignAll globals self)) = (self2, None) /\
    calls2 = (onEvent <$> during) ++ [info "Start install"] ++ (onEvent <$> later)
             ++ [info "Dependencies installation done"].

(** The last call of a successful installation. *)
Definition installDone : ContextCall :=
  CtxSendData [("type", "installEvent"); ("value", "install done")].

(** Nothing that the installation assigns is the global [key]: no function
    and no variable of the environment has this name, and it is not among
    the globals that the CDN installation or a post-install task sets. *)
Definition leavesGlobal (key : string) (world : InstallWorld) (input : MessageDataInstall)
  : Prop :=
  (key ∉ (functions input).*1) /\
  (key ∉ (variables input).*1) /\
  (forall during later defines settles,
     cdnInstall world (cdnInstallation input) = InstallPromise during later defines settles ->
     key ∉ defines.*1) /\
  (forall scope f a, key ∉ (task_defines (runTask world scope f a)).*1).

(** ** Sample installation *)

(** A loader script that defines the CDN client, an installation that
    succeeds after one event, and post-install entry points of three kinds:
    ["return fail"] throws, ["return late"] returns a promise that is
    rejected, any other returns [undefined]. *)
Definition sampleWorld : InstallWorld :=
  {| isTruthy := fun v => bool_decide (v ∉ ["undefined"; "null"; "false"; "0"; ""]);
     hasClient := fun v => bool_decide (v = "cdn");
     importScripts := fun _ => inr [("@youwol/cdn-client", "cdn")];
     hasCustomInstallers := fun _ => true;
     cdnInstall := fun _ => InstallPromise [] ["pyodide loaded"] [("loadedPyodide", "pyodide")]
                              Fulfilled;
     evaluate := fun _ source => Evaluates source;
     runTask := fun _ f _ =>
       if decide (f = "return fail") then
         {| task_calls := []; task_defines := []; task_outcome := TaskThrows "failed" |}
       else if decide (f = "return late") then
         {| task_calls := []; task_defines := [];
            task_outcome := TaskReturns (Some (Rejected "too late")) |}
       else {| task_calls := []; task_defines := []; task_outcome := TaskReturns None |} |}.

Definition sampleInstall (tasks : list (string * Value * Value)) : MessageDataInstall :=
  {| cdnUrl := "cdn.js";
     variables := [("x", "1"); ("y", "2"); ("x", "3")];
     functions := [("f", "return f"); ("y", "return g")];
     cdnInstallation := "graph";
     postInstallTasks := tasks |}.

(** * Properties *)

(** Closed decidable facts, by evaluation. *)
Ltac by_decide := apply (bool_decide_unpack _); vm_compute; exact I.

(** ** Lists *)

Section Filter.
Context {A : Type} (P : A -> Prop) `{!forall x, Decision (P x)}.

Lemma filter_none (l : list A) : Forall (fun x => ~ P x) l -> filter P l = [].
Proof.
  induction 1 as [|x l Hx _ IH]; [done|]. by rewrite filter_cons_False.
Qed.

Lemma filter_all (l : list A) : Forall P l -> filter P l = l.
Proof.
  induction 1 as [|x l Hx _ IH]; [done|]. by rewrite filter_cons_True, IH.
Qed.

Lemma filter_empty_none (l : list A) : filter P l = [] -> Forall (fun x => ~ P x) l.
Proof.
  intros Hnil. apply Forall_forall. intros x Hx HP.
  by apply (filter_nil_not_elem_of P l x).
Qed.

Lemma length_filter_zero (l : list A) :
  length (filter P l) = 0 <-> Forall (fun x => ~ P x) l.
Proof.
  split.
  - intros Hlen. apply filter_empty_none. by destruct (filter P l).
  - intros Hall. by rewrite filter_none.
Qed.
End Filter.

Lemma Forall_filter_keeps {A} (P Q : A -> Prop) `{!forall x, Decision (Q x)} (l : list A) :
  Forall P l -> Forall P (filter Q l).
Proof.
  rewrite !Forall_forall. intros Hall x [_ Hx]%list_elem_of_filter. by apply Hall.
Qed.

(** ** The per-task stream *)

Section TakeWhileInclusive.
Context {A : Type} (P : A -> Prop) `{!forall x, Decision (P x)}.

(** [takeWhile(x => !P x, true)] stops at the first element that
    satisfies [P], and keeps it. *)
Lemma takeWhileInclusive_find (l : list A) :
  match list_find P l with
  | Some (i, x) => takeWhileInclusive (fun x => bool_decide (~ P x)) l = take i l ++ [x]
  | None => takeWhileInclusive (fun x => bool_decide (~ P x)) l = l
  end.
Proof.
  induction l as [|y l IH]; [done|].
  cbn [list_find takeWhileInclusive]. case_decide as Hy.
  - by rewrite bool_decide_eq_false_2 by tauto.
  - rewrite bool_decide_eq_true_2 by done.
    destruct (list_find P l) as [[i x]|]; simpl; by rewrite IH.
Qed.

Lemma filter_take_first (l : list A) i x :
  list_find P l = Some (i, x) -> filter P (take i l ++ [x]) = [x].
Proof.
  intros (Hi & Hx & Hbefore)%list_find_Some.
  rewrite filter_app, filter_cons_True, filter_nil by done.
  rewrite filter_none; [done|]. apply Forall_forall.
  intros y [j [Hj Hlt]%lookup_take_Some]%list_elem_of_lookup.
  eauto.
Qed.
End TakeWhileInclusive.


(** The subscription [pickTask] makes on the channel of a task keeps the
    messages of type [Exit] of that channel: there is at most one, the
    first message of the merged channel that [fires] the subscription. *)
Lemma list_find_filter {A} (P Q : A -> Prop)
  `{!forall x, Decision (P x), !forall x, Decision (Q x),
    !forall x, Decision (Q x /\ P x)} (l : list A) :
  snd <$> list_find P (filter Q l) = snd <$> list_find (fun x => Q x /\ P x) l.
Proof.
  induction l as [|x l IH]; [done|].
  rewrite filter_cons. destruct (decide (Q x)) as [HQ|HQ]; simpl.
  - destruct (decide (P x)) as [HP|HP].
    + by rewrite decide_True by done.
    + rewrite decide_False by tauto.
      destruct (list_find P (filter Q l)) as [[i y]|],
               (list_find (fun x => Q x /\ P x) l) as [[j z]|]; simpl in *; congruence.
  - rewrite decide_False by tauto. rewrite IH.
    by destruct (list_find (fun x => Q x /\ P x) l) as [[j z]|].
Qed.

Lemma subscription_sees_one_exit t workerId merged :
  filter (fun message => type message = Exit) (getTaskChannel t merged)
  = option_list
      (find (fun message => fires message {| sub_taskId := t; sub_workerId := workerId |})
            merged).
Proof.
  unfold getTaskChannel, find.
  set (sub := {| sub_taskId := t; sub_workerId := workerId |}).
  change (list_find (fun message => fires message sub) merged)
    with (@list_find _ (fun message => data_taskId (data message) = t /\ type message = Exit)
            (fun message => fires_dec message sub) merged).
  rewrite <- (list_find_filter (fun message => type message = Exit)
                (fun message => data_taskId (data message) = t)).
  set (mine := filter (fun message => data_taskId (data message) = t) merged).
  pose proof (takeWhileInclusive_find (fun message => type message = Exit) mine) as Hspec.
  destruct (list_find _ mine) as [[i e]|] eqn:Hfind; rewrite Hspec; simpl.
  - by apply filter_take_first.
  - apply filter_none. by apply (list_find_None (fun message => type message = Exit)).
Qed.

(** ** Dispatch *)

Lemma guardEligible_findEligible workerId t :
  guardEligible workerId t -> findEligible workerId t.
Proof.
  unfold guardEligible, findEligible.
  destruct (targetWorkerId t) as [target|]; simpl; [|done].
  intros ->. by case_bool_decide.
Qed.

Lemma findEligible_guardEligible workerId t :
  targetWorkerId t <> Some "" -> findEligible workerId t -> guardEligible workerId t.
Proof.
  unfold guardEligible, findEligible.
  destruct (targetWorkerId t) as [target|]; simpl; [|done].
  case_bool_decide; [congruence|]. intros Hne _. naive_solver.
Qed.

Lemma find_Some {A} (P : A -> Prop) `{!forall x, Decision (P x)} (l : list A) x :
  find P l = Some x <-> exists i, list_find P l = Some (i, x).
Proof.
  unfold find. destruct (list_find P l) as [[i y]|]; simpl.
  - split; [intros [= ->]; eauto|]. by intros [j [= _ ->]].
  - split; [done|]. by intros [j ?].
Qed.

Lemma find_None {A} (P : A -> Prop) `{!forall x, Decision (P x)} (l : list A) :
  find P l = None <-> Forall (fun x => ~ P x) l.
Proof.
  unfold find. rewrite <- (list_find_None P). by destruct (list_find P l).
Qed.

Lemma pickTask_nothing workerId s :
  Forall (fun t => ~ guardEligible workerId t) (tasksQueue s) ->
  pickTask workerId s = (s, Returned tt).
Proof.
  intros Hnone. unfold pickTask, bind, gets, ret; simpl.
  by rewrite decide_True by by apply length_filter_zero.
Qed.

Lemma getMember_own key (o : list (WorkerId * WorkerRef)) worker :
  lookupWorker key o = Some worker -> getMember key o = Entry worker.
Proof. unfold getMember. by intros ->. Qed.

Lemma getMember_Undefined key (o : list (WorkerId * WorkerRef)) :
  getMember key o = Undefined <-> lookupWorker key o = None /\ key ∉ objectPrototype.
Proof.
  unfold getMember. destruct (lookupWorker key o); [by split; [|intros [? _]]|].
  case_decide; split; try done. by intros [_ ?].
Qed.

Lemma getMember_Inherited key (o : list (WorkerId * WorkerRef)) :
  getMember key o = Inherited <-> lookupWorker key o = None /\ key ∈ objectPrototype.
Proof.
  unfold getMember. destruct (lookupWorker key o); [by split; [|intros [? _]]|].
  case_decide; split; try done. by intros [_ ?].
Qed.

Lemma getMember_Entry key (o : list (WorkerId * WorkerRef)) worker :
  getMember key o = Entry worker <-> lookupWorker key o = Some worker.
Proof.
  split; [|apply getMember_own]. unfold getMember.
  destruct (lookupWorker key o); [by intros [= ->]|]. by case_decide.
Qed.

Lemma pickTask_picks workerId s picked :
  Exists (guardEligible workerId) (tasksQueue s) ->
  find (findEligible workerId) (tasksQueue s) = Some picked ->
  pickTask workerId s =
    match getMember workerId (workers s) with
    | Entry worker => (dispatched workerId picked worker s, Returned tt)
    | Inherited =>
        (set_exitSubs (fun subs =>
           subs ++ [{| sub_taskId := taskId picked; sub_workerId := workerId |}])
           (set_runningTasks (fun running => running ++ [(workerId, taskId picked)])
              (set_tasksQueue (filter (fun t => taskId t <> taskId picked))
                 (set_busyWorkers (fun busy => busy ++ [workerId]) s))),
         Thrown TypeError)
    | Undefined =>
        (set_runningTasks (fun running => running ++ [(workerId, taskId picked)])
           (set_tasksQueue (filter (fun t => taskId t <> taskId picked))
              (set_busyWorkers (fun busy => busy ++ [workerId]) s)),
         Thrown TypeError)
    end.
Proof.
  intros Hsome Hfind. unfold pickTask, bind, gets, ret, modify, throw, postMessage; simpl.
  rewrite decide_False
    by (rewrite length_filter_zero; intros Hnone; by apply Forall_not_Exists in Hnone).
  rewrite Hfind. simpl. by destruct (getMember workerId (workers s)).
Qed.

(** Whenever the guard of [pickTask] passes, its [find] succeeds. *)
Lemma pickTask_find_total workerId s :
  Exists (guardEligible workerId) (tasksQueue s) ->
  is_Some (find (findEligible workerId) (tasksQueue s)).
Proof.
  intros Hsome. destruct (find _ _) eqn:Hfind; [done|].
  apply find_None in Hfind. apply Exists_exists in Hsome as (t & Hin & Hg).
  rewrite Forall_forall in Hfind.
  destruct (Hfind t Hin). by apply guardEligible_findEligible.
Qed.

(** Removing by [taskId] removes one entry when the ids are distinct. *)
Lemma filter_taskId_delete (queue : list QueuedTask) i picked :
  NoDup (taskId <$> queue) ->
  queue !! i = Some picked ->
  filter (fun t => taskId t <> taskId picked) queue = delete i queue.
Proof.
  revert i. induction queue as [|t queue IH]; intros i Hnodup Hi; [done|].
  apply NoDup_cons in Hnodup as [Hfresh Hnodup].
  destruct i as [|i]; simpl in Hi.
  - injection Hi as ->. rewrite filter_cons_False by tauto. simpl.
    apply filter_all, Forall_forall. intros t Ht Heq.
    apply Hfresh. rewrite <- Heq. by apply list_elem_of_fmap_2.
  - rewrite filter_cons_True.
    + simpl. f_equal. by apply IH.
    + intros Heq. apply Hfresh. rewrite Heq.
      apply list_elem_of_fmap_2. by eapply list_elem_of_lookup_2.
Qed.

Lemma length_filter_taskId (queue : list QueuedTask) (id : TaskId) :
  length (filter (fun t => taskId t <> id) queue) + length (filter (fun t => taskId t = id) queue)
  = length queue.
Proof.
  induction queue as [|t queue IH]; [done|].
  destruct (decide (taskId t = id)) as [Heq|Hne].
  - rewrite filter_cons_False, (filter_cons_True (fun t => taskId t = id)) by tauto.
    simpl. lia.
  - rewrite filter_cons_True, (filter_cons_False (fun t => taskId t = id)) by tauto.
    simpl. lia.
Qed.

(** Removing by [taskId] removes the picked entry alone exactly when no
    other entry has its [taskId]. *)
Lemma filter_taskId_delete_iff (queue : list QueuedTask) i picked :
  queue !! i = Some picked ->
  filter (fun t => taskId t <> taskId picked) queue = delete i queue <->
  filter (fun t => taskId t = taskId picked) queue = [picked].
Proof.
  intros Hi. split.
  - intros Hdelete.
    pose proof (length_filter_taskId queue (taskId picked)) as Hlen.
    rewrite Hdelete, length_delete in Hlen by eauto.
    assert (Hin : picked ∈ filter (fun t => taskId t = taskId picked) queue).
    { apply list_elem_of_filter. split; [done|]. by eapply list_elem_of_lookup_2. }
    assert (Hpos : 0 < length queue) by (apply lookup_lt_Some in Hi; lia).
    destruct (filter (fun t => taskId t = taskId picked) queue) as [|x [|y same]];
      simpl in Hlen; [lia| |lia].
    by apply list_elem_of_singleton in Hin as ->.
  - revert i Hi. induction queue as [|t queue IH]; intros i Hi Hsame; [done|].
    destruct i as [|i]; simpl in Hi.
    + injection Hi as ->. rewrite filter_cons_True in Hsame by done.
      injection Hsame as Hsame. rewrite filter_cons_False by tauto. simpl.
      apply filter_all. by apply (filter_empty_none (fun t => taskId t = taskId picked)).
    + rewrite filter_cons in Hsame. destruct (decide (taskId t = taskId picked)) as [Heq|Hne].
      * injection Hsame as -> Hsame.
        apply (filter_empty_none (fun t => taskId t = taskId picked)) in Hsame.
        rewrite Forall_forall in Hsame. destruct (Hsame picked); [|done].
        by eapply list_elem_of_lookup_2.
      * rewrite filter_cons_True by done. simpl. f_equal. by apply IH.
Qed.

(** C10.  Whenever a task is eligible for [workerId], [pickTask] picks the
    oldest task its [find] accepts and, whether it then returns or throws,
    leaves the old queue without the entries whose [taskId] is that of the
    picked task, the other entries in their order: the queue gets shorter by
    the number of entries under that [taskId], while one entry is added to
    the running-task index and one [Execute] at most is sent (one when
    [workerId] is a key of the workers map).  So entries that share the
    [taskId] of the picked task are dropped without being run.  The picked
    entry alone is removed exactly when no other queued entry has its
    [taskId], as is the case when the queued [taskId]s are distinct. *)
Theorem pickTask_removes_by_taskId workerId s :
  Exists (guardEligible workerId) (tasksQueue s) ->
  let s' := exec (pickTask workerId) s in
  exists i picked,
    list_find (findEligible workerId) (tasksQueue s) = Some (i, picked) /\
    tasksQueue s' = filter (fun t => taskId t <> taskId picked) (tasksQueue s) /\
    length (tasksQueue s')
    + length (filter (fun t => taskId t = taskId picked) (tasksQueue s))
    = length (tasksQueue s) /\
    runningTasks s' = runningTasks s ++ [(workerId, taskId picked)] /\
    trace s' = trace s ++ match getMember workerId (workers s) with
                          | Entry worker => [PostMessage worker (executeMessage picked workerId)]
                          | _ => []
                          end /\
    (tasksQueue s' = delete i (tasksQueue s) <->
     filter (fun t => taskId t = taskId picked) (tasksQueue s) = [picked]) /\
    (NoDup (taskId <$> tasksQueue s) -> tasksQueue s' = delete i (tasksQueue s)).
Proof.
  intros Hsome s'.
  destruct (pickTask_find_total _ _ Hsome) as [picked Hfind].
  pose proof Hfind as [i Hi]%find_Some.
  pose proof Hi as (Hlookup & _)%list_find_Some.
  assert (Hrun : tasksQueue s' = filter (fun t => taskId t <> taskId picked) (tasksQueue s) /\
                 runningTasks s' = runningTasks s ++ [(workerId, taskId picked)] /\
                 trace s' = trace s ++
                   match getMember workerId (workers s) with
                   | Entry worker => [PostMessage worker (executeMessage picked workerId)]
                   | _ => []
                   end).
  { unfold s', exec. rewrite (pickTask_picks _ _ picked) by done.
    destruct (getMember workerId (workers s)); simpl; by rewrite ?app_nil_r. }
  destruct Hrun as (Hqueue & Hrunning & Htrace).
  exists i, picked. split_and!; try done.
  - rewrite Hqueue. apply length_filter_taskId.
  - rewrite Hqueue. by apply filter_taskId_delete_iff.
  - intros Hnodup. rewrite Hqueue. by apply filter_taskId_delete.
Qed.

(** Three queued tasks, the first and the last under one [taskId]: picking
    for [w1] leaves the middle one alone and sends a single [Execute]. *)
Lemma pickTask_removes_by_taskId_witness :
  let s := samplePool 2 [("w1", 0)] [] []
             [sampleTask "t1" None; sampleTask "t2" (Some "w2"); sampleTask "t1" None] [] in
  tasksQueue (exec (pickTask "w1") s) = [sampleTask "t2" (Some "w2")] /\
  trace (exec (pickTask "w1") s) = [PostMessage 0 (executeMessage (sampleTask "t1" None) "w1")].
Proof.
  intros s.
  destruct (pickTask_removes_by_taskId "w1" s)
    as (i & picked & Hfind & Hqueue & _ & _ & Htrace & _).
  - apply Exists_cons_hd. exact I.
  - injection Hfind as <- <-. split; [by rewrite Hqueue|by rewrite Htrace].
Defined.

(** C2, as amended.  A task is eligible for [workerId] when it is unpinned
    or pinned to [workerId] (the test of the guard of [pickTask]).
    - With no eligible task in the queue, [pickTask] changes nothing at all.
    - With an eligible task, for a [workerId] that is a key of the workers
      map, in a queue whose [taskId]s are distinct and whose pins are not
      the empty string (what [schedule] puts there): [pickTask] returns
      normally, the task it sends is the oldest eligible one (so never one
      pinned elsewhere), [workerId] is appended to the busy set, that one
      entry leaves the queue, the pair is appended to the running-task
      index and one [Execute] for it goes to the worker. *)
Theorem pickTask_oldest_eligible workerId s :
  (Forall (fun t => ~ guardEligible workerId t) (tasksQueue s) ->
   pickTask workerId s = (s, Returned tt)) /\
  (forall worker,
     lookupWorker workerId (workers s) = Some worker ->
     Forall (fun t => targetWorkerId t <> Some "") (tasksQueue s) ->
     NoDup (taskId <$> tasksQueue s) ->
     Exists (guardEligible workerId) (tasksQueue s) ->
     exists i picked s',
       pickTask workerId s = (s', Returned tt) /\
       tasksQueue s !! i = Some picked /\
       guardEligible workerId picked /\
       (forall j t, tasksQueue s !! j = Some t -> j < i -> ~ guardEligible workerId t) /\
       busyWorkers s' = busyWorkers s ++ [workerId] /\
       tasksQueue s' = delete i (tasksQueue s) /\
       runningTasks s' = runningTasks s ++ [(workerId, taskId picked)] /\
       trace s' = trace s ++ [PostMessage worker (executeMessage picked workerId)] /\
       workers s' = workers s).
Proof.
  split; [apply pickTask_nothing|].
  intros worker Hworker Hpins Hnodup Hsome.
  destruct (pickTask_find_total _ _ Hsome) as [picked Hfind].
  pose proof Hfind as [i Hi]%find_Some.
  apply list_find_Some in Hi as (Hi & Hpicked & Hbefore).
  rewrite Forall_forall in Hpins.
  exists i, picked, (dispatched workerId picked worker s).
  split_and!; try done.
  - by rewrite (pickTask_picks _ _ picked), (getMember_own _ _ worker).
  - apply findEligible_guardEligible; [|done].
    by eapply Hpins, list_elem_of_lookup_2.
  - intros j t Hj Hlt Hg. by eapply Hbefore, guardEligible_findEligible.
  - simpl. by apply filter_taskId_delete.
Qed.

(** A pinned task for another worker ahead of an unpinned one: [w1] gets the
    unpinned one; with only the pinned one queued, nothing moves. *)
Lemma pickTask_oldest_eligible_witness :
  let s := samplePool 2 [("w1", 0)] [] []
             [sampleTask "t1" (Some "w2"); sampleTask "t2" None] [] in
  (exists s', pickTask "w1" s = (s', Returned tt) /\
              busyWorkers s' = ["w1"] /\
              tasksQueue s' = [sampleTask "t1" (Some "w2")] /\
              runningTasks s' = [("w1", "t2")]) /\
  let idle := samplePool 2 [("w1", 0)] [] [] [sampleTask "t1" (Some "w2")] [] in
  pickTask "w1" idle = (idle, Returned tt).
Proof.
  intros s. split.
  - destruct (pickTask_oldest_eligible "w1" s) as [_ Hpick].
    destruct (Hpick 0) as (i & picked & s' & Hrun & Hi & Hg & Hold & Hbusy & Hq & Hr & _).
    + reflexivity.
    + by_decide.
    + by_decide.
    + by_decide.
    + exists s'. destruct i as [|[|i]]; simpl in Hi; try discriminate.
      * injection Hi as <-. vm_compute in Hg. discriminate.
      * injection Hi as <-. by rewrite Hrun, Hbusy, Hq, Hr.
  - intros idle. apply (proj1 (pickTask_oldest_eligible "w1" idle)).
    by_decide.
Defined.

(** C2 as stated fails in two ways.  With two queued tasks under one
    [taskId], [pickTask] empties the queue, which is not the removal of one
    entry.  With a [workerId] that is not a key of the workers map,
    [pickTask] marks it busy and unqueues the task, then throws before any
    [Execute] is sent. *)
Lemma pickTask_not_exactly_one_counterexample :
  (let s := samplePool 2 [("w1", 0)] [] [] [sampleTask "t1" None; sampleTask "t1" None] [] in
   Exists (guardEligible "w1") (tasksQueue s) /\
   tasksQueue (exec (pickTask "w1") s) = [] /\
   ~ exists i, tasksQueue (exec (pickTask "w1") s) = delete i (tasksQueue s)) /\
  (let s := samplePool 2 [] [] [] [sampleTask "t1" None] [] in
   Exists (guardEligible "w1") (tasksQueue s) /\
   snd (pickTask "w1" s) = Thrown TypeError /\
   busyWorkers (exec (pickTask "w1") s) = ["w1"] /\
   tasksQueue (exec (pickTask "w1") s) = [] /\
   trace (exec (pickTask "w1") s) = []).
Proof.
  split.
  - intros s. split_and!.
    + apply Exists_cons_hd. exact I.
    + reflexivity.
    + intros [i Hi]. vm_compute in Hi. by destruct i as [|[|i]].
  - intros s. split_and!; try reflexivity.
    apply Exists_cons_hd. exact I.
Qed.

(** ** Termination *)

(** [pickTask] reads the queue, the registry, and nothing of the trace. *)
Lemma pickTask_frame_trace workerId s extra :
  let s1 := exec (pickTask workerId) s in
  let s2 := exec (pickTask workerId) (set_trace (fun t => t ++ extra) s) in
  snd (pickTask workerId (set_trace (fun t => t ++ extra) s)) = snd (pickTask workerId s) /\
  workers s2 = workers s1 /\ busyWorkers s2 = busyWorkers s1 /\
  runningTasks s2 = runningTasks s1 /\ tasksQueue s2 = tasksQueue s1 /\
  exitSubs s2 = exitSubs s1.
Proof.
  intros s1 s2. unfold s1, s2, exec.
  destruct (decide (Exists (guardEligible workerId) (tasksQueue s))) as [Hsome|Hnone].
  - destruct (pickTask_find_total _ _ Hsome) as [picked Hfind].
    rewrite !(pickTask_picks _ _ picked) by done. simpl.
    by destruct (getMember workerId (workers s)).
  - apply not_Exists_Forall in Hnone; [|apply _].
    by rewrite !pickTask_nothing.
Qed.

(** C9.  [terminate()] returns normally; it calls [terminate] on the worker
    of each entry of the workers map, in the order of the map, and leaves
    the workers map, the busy set, the running-task index and the pending
    queue (and the subscriptions) as they were.  So a terminated worker is
    still found by its id, and a later [pickTask] for it ends as it would
    have ended without the termination, busy mark and dispatch included. *)
Theorem terminate_frame s :
  let s' := exec terminate s in
  snd (terminate s) = Returned tt /\
  trace s' = trace s ++ map (fun entry => Terminate (snd entry)) (workers s) /\
  workers s' = workers s /\
  busyWorkers s' = busyWorkers s /\
  runningTasks s' = runningTasks s /\
  tasksQueue s' = tasksQueue s /\
  installing s' = installing s /\
  exitSubs s' = exitSubs s /\
  (forall workerId,
     lookupWorker workerId (workers s') = lookupWorker workerId (workers s) /\
     snd (pickTask workerId s') = snd (pickTask workerId s) /\
     busyWorkers (exec (pickTask workerId) s') = busyWorkers (exec (pickTask workerId) s) /\
     runningTasks (exec (pickTask workerId) s') = runningTasks (exec (pickTask workerId) s) /\
     tasksQueue (exec (pickTask workerId) s') = tasksQueue (exec (pickTask workerId) s)).
Proof.
  intros s'. split_and!; try reflexivity.
  intros workerId. split; [reflexivity|].
  pose proof (pickTask_frame_trace workerId s
                (map (fun entry => Terminate (snd entry)) (workers s))) as Hframe.
  simpl in Hframe. unfold s', exec at 2 4 6, terminate, bind, gets, modify. simpl.
  tauto.
Qed.

(** ** Scheduling on an unknown worker *)

(** C6, as amended.  When [targetWorkerId] is a non-empty string that is
    neither a key of the workers map nor the name of a property inherited
    from [Object.prototype], [schedule] throws
    [Error('Provided workerId not known')]; nothing is sent, and the workers
    map, the busy set, the running-task index, the pending queue and the
    subscriptions are what they were (one random number was drawn). *)
Theorem schedule_unknown_worker_throws entryPoint args target s :
  target <> "" ->
  target ∉ objectPrototype ->
  lookupWorker target (workers s) = None ->
  schedule entryPoint args (Some target) s
  = (set_rngPos S s, Thrown (Error "Provided workerId not known")) /\
  let s' := exec (schedule entryPoint args (Some target)) s in
  trace s' = trace s /\
  workers s' = workers s /\
  busyWorkers s' = busyWorkers s /\
  runningTasks s' = runningTasks s /\
  tasksQueue s' = tasksQueue s /\
  installing s' = installing s /\
  exitSubs s' = exitSubs s /\
  spawned s' = spawned s.
Proof.
  intros Hne Hplain Hunknown.
  assert (Hrun : schedule entryPoint args (Some target) s
                 = (set_rngPos S s, Thrown (Error "Provided workerId not known"))).
  { unfold schedule, bind, random, gets, throw. simpl.
    rewrite bool_decide_eq_true_2 by done.
    by rewrite (proj2 (getMember_Undefined target (workers s))). }
  split; [done|]. unfold exec. by rewrite Hrun.
Qed.

Lemma schedule_unknown_worker_throws_witness :
  let s := samplePool 2 [("w1", 0)] [] [] [] [] in
  snd (schedule "f" "args" (Some "w2") s) = Thrown (Error "Provided workerId not known") /\
  tasksQueue (exec (schedule "f" "args" (Some "w2")) s) = [].
Proof.
  intros s.
  destruct (schedule_unknown_worker_throws "f" "args" "w2" s) as [Hrun Hframe].
  - discriminate.
  - by_decide.
  - reflexivity.
  - split; [by rewrite Hrun|]. apply Hframe.
Defined.

(** C6 as stated fails in two ways.  The empty string is not a key of the
    workers map, yet [schedule] does not throw: it treats the task as
    unpinned, here queueing it in a pool without capacity.  And [toString]
    is not a key of the workers map either, but [workers$.value['toString']]
    is a function, so [schedule] queues the task and calls [pickTask]: with
    [w1] busy and the unpinned task [t5] waiting, [toString] is marked busy,
    [t5] leaves the queue for the running-task index, and a [TypeError] is
    thrown before anything is sent. *)
Lemma schedule_unknown_target_counterexample :
  (let s := newWorkersFactory 0 sampleEnvironment (fun i => N.of_nat i) in
   lookupWorker "" (workers s) = None /\
   snd (schedule "f" "args" (Some "") s) = Returned "t0" /\
   tasksQueue (exec (schedule "f" "args" (Some "")) s)
   = [{| taskId := "t0"; targetWorkerId := None; args := "args"; entryPoint := "f" |}] /\
   tasksQueue (exec (schedule "f" "args" (Some "")) s) <> tasksQueue s) /\
  (let s := samplePool 1 [("w1", 0)] ["w1"] [("w1", "t1")] [sampleTask "t5" None]
              [{| sub_taskId := "t1"; sub_workerId := "w1" |}] in
   let s' := exec (schedule "f" "args" (Some "toString")) s in
   lookupWorker "toString" (workers s) = None /\
   snd (schedule "f" "args" (Some "toString") s) = Thrown TypeError /\
   busyWorkers s' = ["w1"; "toString"] /\
   runningTasks s' = [("w1", "t1"); ("toString", "t5")] /\
   tasksQueue s' = [sampleTask "t0" (Some "toString")] /\
   trace s' = []).
Proof.
  split.
  - intros s. split_and!; try reflexivity. discriminate.
  - intros s s'. by split_and!.
Qed.

(** ** Release *)



Lemma workerReleased_unfold workerId t s :
  workerReleased workerId t s
  = pickTask workerId
      (set_runningTasks (filter (fun task => snd task <> t))
         (set_busyWorkers (filter (fun wId => wId <> workerId)) s)).
Proof. reflexivity. Qed.




(** ** What the orchestrator does with the messages of a task run *)

Lemma set_exitSubs_same f s : f (exitSubs s) = exitSubs s -> set_exitSubs f s = s.
Proof. destruct s. unfold set_exitSubs. simpl. by intros ->. Qed.


Lemma set_installing_same f s : f (installing s) = installing s -> set_installing f s = s.
Proof. destruct s. unfold set_installing. simpl. by intros ->. Qed.




(** Once the installation of [worker] is over, its messages only matter on
    the merged channel. *)
Lemma onmessage_after_install worker message s :
  filter (fun i => inst_worker i = worker) (installing s) = [] ->
  onmessage worker message s = exec (mergedChannelNext message) s.
Proof.
  intros Hdone. unfold onmessage, exec, workerChannelNext, bind, gets, modify, ret.
  destruct (decide (type message = Exit)); [|done]. simpl.
  rewrite Hdone. simpl. rewrite set_installing_same; [done|].
  apply filter_all. by apply (filter_empty_none (fun i => inst_worker i = worker)).
Qed.





(** ** Creation of workers *)

Lemma pickTask_frame workerId s :
  let s' := exec (pickTask workerId) s in
  poolSize s' = poolSize s /\ workers s' = workers s /\ environment s' = environment s /\
  installing s' = installing s /\ spawned s' = spawned s /\
  rng s' = rng s /\ rngPos s' = rngPos s.
Proof.
  intros s'. unfold s', exec.
  destruct (decide (Exists (guardEligible workerId) (tasksQueue s))) as [Hsome|Hnone].
  - destruct (pickTask_find_total _ _ Hsome) as [picked Hfind].
    rewrite (pickTask_picks _ _ picked) by done.
    by destruct (getMember workerId (workers s)).
  - apply not_Exists_Forall in Hnone; [|apply _]. by rewrite pickTask_nothing.
Qed.

Lemma createWorker_run tasks s :
  env_postInstallTasks (environment s) = Some tasks ->
  createWorker s
  = (created tasks s,
     Returned (spawned s, "w" +:+ pretty (rng s (rngPos s) mod 1000000)%N)).
Proof.
  intros Henv. unfold createWorker, bind, random, gets, modify, postMessage, ret. simpl.
  by rewrite Henv.
Qed.

Lemma createWorkers_run tasks n s :
  env_postInstallTasks (environment s) = Some tasks ->
  exists l s' posts,
    createWorkers n s = (s', Returned l) /\
    fst <$> l = seq (spawned s) n /\
    spawned s' = spawned s + n /\
    trace s' = trace s ++ posts /\
    Forall2 (installerSent (environment s) tasks) (reserved <$> l) posts /\
    poolSize s' = poolSize s /\ workers s' = workers s /\
    runningTasks s' = runningTasks s /\ busyWorkers s' = busyWorkers s /\
    tasksQueue s' = tasksQueue s /\ environment s' = environment s /\
    installing s' = installing s /\ exitSubs s' = exitSubs s.
Proof.
  revert s. induction n as [|n IH]; intros s Henv.
  - exists [], s, []. simpl. rewrite Nat.add_0_r, app_nil_r. by split_and!.
  - destruct (IH (created tasks s) Henv)
      as (l & s' & posts & Hrun & Hrefs & Hspawned & Htrace & Hposts
          & Hsize & Hworkers & Hrunning & Hbusy & Hqueue & Henv' & Hinst & Hsubs).
    exists ((spawned s, "w" +:+ pretty (rng s (rngPos s) mod 1000000)%N) :: l), s',
      (PostMessage (spawned s)
         (installMessage (environment s) tasks
            ("t" +:+ pretty (rng s (S (rngPos s)) mod 1000000)%N)
            ("w" +:+ pretty (rng s (rngPos s) mod 1000000)%N)) :: posts).
    split_and!.
    + cbn [createWorkers]. unfold bind. rewrite (createWorker_run tasks) by done.
      rewrite Hrun. reflexivity.
    + rewrite fmap_cons, Hrefs. reflexivity.
    + rewrite Hspawned. simpl. lia.
    + rewrite Htrace. simpl. by rewrite <- app_assoc.
    + simpl. constructor; [|exact Hposts]. by eexists.
    + by rewrite Hsize.
    + by rewrite Hworkers.
    + by rewrite Hrunning.
    + by rewrite Hbusy.
    + by rewrite Hqueue.
    + by rewrite Henv'.
    + by rewrite Hinst.
    + by rewrite Hsubs.
Qed.

Lemma subscribeAll_run l s :
  subscribeAll l s = (set_installing (fun pending => pending ++ (reserved <$> l)) s, Returned tt).
Proof.
  revert s. induction l as [|[worker workerId] l IH]; intros s.
  - unfold subscribeAll, ret. f_equal. symmetry. apply set_installing_same.
    simpl. by rewrite app_nil_r.
  - cbn [subscribeAll]. unfold bind, subscribeInstall, modify. rewrite IH.
    f_equal. unfold set_installing. simpl. by rewrite <- app_assoc.
Qed.

(** ** Completion of installations *)

Lemma mergedChannelNext_silent message s :
  Forall (fun sub => ~ fires message sub) (exitSubs s) ->
  exec (mergedChannelNext message) s = s.
Proof.
  intros Hsilent. unfold mergedChannelNext, exec, bind, gets, modify. simpl.
  rewrite (filter_none (fires message)) by done. simpl.
  by apply set_exitSubs_same, filter_all.
Qed.

Lemma onmessage_installed i message s :
  type message = Exit ->
  filter (fun j => inst_worker j = inst_worker i) (installing s) = [i] ->
  inst_task i = None ->
  Forall (fun sub => ~ fires message sub) (exitSubs s) ->
  onmessage (inst_worker i) message s
  = set_workers (insertWorker (inst_workerId i) (inst_worker i))
      (set_installing (filter (fun j => inst_worker j <> inst_worker i)) s).
Proof.
  intros Hexit Hmine Hreserve Hsilent.
  unfold onmessage, exec, bind. unfold workerChannelNext at 1.
  rewrite decide_True by done. unfold bind, gets, modify. simpl.
  rewrite Hmine. unfold forEach, unhandled, installed, bind, modify, ret.
  rewrite Hreserve. simpl.
  by apply mergedChannelNext_silent.
Qed.

Lemma insertWorker_fresh key value (o : list (WorkerId * WorkerRef)) :
  key ∉ o.*1 -> insertWorker key value o = o ++ [(key, value)].
Proof.
  induction o as [|[k v] o IH]; intros Hfresh; [done|]. simpl in *.
  apply not_elem_of_cons in Hfresh as [Hne Hfresh].
  rewrite decide_False by done. by rewrite IH.
Qed.

Lemma insertWorker_lookup key value (o : list (WorkerId * WorkerRef)) k :
  lookupWorker k (insertWorker key value o)
  = if decide (k = key) then Some value else lookupWorker k o.
Proof.
  induction o as [|[k' v'] o IH]; simpl.
  - destruct (decide (key = k)), (decide (k = key)); congruence.
  - destruct (decide (k' = key)) as [->|Hne]; simpl.
    + destruct (decide (key = k)), (decide (k = key)); congruence.
    + destruct (decide (k' = k)) as [->|Hne'].
      * by rewrite decide_False.
      * exact IH.
Qed.

Lemma registerAll_fresh news (o : list (WorkerId * WorkerRef)) :
  NoDup (o.*1 ++ (inst_workerId <$> news)) ->
  registerAll news o = o ++ ((fun i => (inst_workerId i, inst_worker i)) <$> news).
Proof.
  revert o. induction news as [|i news IH]; intros o Hnodup.
  - simpl. by rewrite app_nil_r.
  - unfold registerAll in *. simpl.
    rewrite insertWorker_fresh.
    + rewrite IH; [by rewrite <- app_assoc|].
      rewrite fmap_app. simpl. rewrite <- app_assoc. exact Hnodup.
    + apply NoDup_app in Hnodup as (_ & Hdisjoint & _).
      intros Hin. apply (Hdisjoint _ Hin). simpl. by left.
Qed.

Lemma installExits_run exitOf :
  (forall i, type (exitOf i) = Exit) ->
  forall news s old,
    installing s = old ++ news ->
    Forall (fun j => inst_worker j ∉ inst_worker <$> news) old ->
    NoDup (inst_worker <$> news) ->
    Forall (fun i => inst_task i = None) news ->
    (forall i, Forall (fun sub => ~ fires (exitOf i) sub) (exitSubs s)) ->
    let s' := installExits exitOf news s in
    workers s' = registerAll news (workers s) /\
    installing s' = old /\ exitSubs s' = exitSubs s /\
    busyWorkers s' = busyWorkers s /\ runningTasks s' = runningTasks s /\
    tasksQueue s' = tasksQueue s /\ trace s' = trace s /\ spawned s' = spawned s.
Proof.
  intros Hexit. induction news as [|i news IH]; intros s old Hinst Hold Hnodup Hnone Hsilent.
  - simpl. rewrite app_nil_r in Hinst. by split_and!.
  - apply NoDup_cons in Hnodup as [Hfresh Hnodup].
    apply Forall_cons in Hnone as [Hi Hnone].
    assert (Hmine : filter (fun j => inst_worker j = inst_worker i) (installing s) = [i]).
    { rewrite Hinst, filter_app, filter_cons_True by done.
      rewrite !filter_none; [done| |].
      - apply Forall_forall. intros j Hj Heq. apply Hfresh. rewrite <- Heq.
        by apply list_elem_of_fmap_2.
      - eapply Forall_impl; [exact Hold|]. intros j Hj Heq. apply Hj.
        rewrite Heq. simpl. by left. }
    assert (Hothers : filter (fun j => inst_worker j <> inst_worker i) (installing s)
                      = old ++ news).
    { rewrite Hinst, filter_app, filter_cons_False by tauto.
      rewrite !filter_all; [done| |].
      - apply Forall_forall. intros j Hj Heq. apply Hfresh. rewrite <- Heq.
        by apply list_elem_of_fmap_2.
      - eapply Forall_impl; [exact Hold|]. intros j Hj Heq. apply Hj.
        rewrite Heq. simpl. by left. }
    unfold installExits in *. cbn [foldl].
    rewrite onmessage_installed by done.
    match goal with |- context [foldl _ ?s1 news] => set (s1' := s1) end.
    assert (Hold' : Forall (fun j => inst_worker j ∉ inst_worker <$> news) old).
    { eapply Forall_impl; [exact Hold|]. intros j Hj Hin. apply Hj. simpl. by right. }
    destruct (IH s1' old Hothers Hold' Hnodup Hnone Hsilent) as (Hw & Hrest).
    rewrite Hw. split; [reflexivity|exact Hrest].
Qed.

(** ** Reserving workers *)

(** What [reserve] does, which is not what C7 asks for.  For
    [0 <= n <= poolSize] (and [n] a valid array length), in a pool whose
    environment has its post-install tasks, [reserve(n)] returns normally
    after creating [n] new workers, without a look at the workers that
    exist: the [n] next [Worker] objects, each sent one installer
    [Execute], each with a pipeline waiting for its first [Exit].  The
    workers map, the busy set, the running-task index and the queue are not
    touched.  When afterwards one [Exit] per new worker reaches the
    orchestrator (none of them being awaited by a dispatched task), the
    workers map is the earlier one with the new workers registered; busy
    set, index and queue are still the earlier ones. *)
Theorem reserve_creates_workersCount workersCount tasks s :
  (0 <= workersCount <= poolSize s)%Z ->
  (workersCount < 2 ^ 32)%Z ->
  env_postInstallTasks (environment s) = Some tasks ->
  exists news posts,
    let s' := exec (reserve workersCount) s in
    snd (reserve workersCount s) = Returned tt /\
    inst_worker <$> news = seq (spawned s) (Z.to_nat workersCount) /\
    Forall (fun i => inst_task i = None) news /\
    spawned s' = spawned s + Z.to_nat workersCount /\
    installing s' = installing s ++ news /\
    trace s' = trace s ++ posts /\
    Forall2 (installerSent (environment s) tasks) news posts /\
    workers s' = workers s /\ busyWorkers s' = busyWorkers s /\
    runningTasks s' = runningTasks s /\ tasksQueue s' = tasksQueue s /\
    forall exitOf,
      (forall i, type (exitOf i) = Exit) ->
      Forall (fun j => inst_worker j < spawned s) (installing s) ->
      (forall i, Forall (fun sub => ~ fires (exitOf i) sub) (exitSubs s)) ->
      let s'' := installExits exitOf news s' in
      workers s'' = registerAll news (workers s) /\
      (NoDup ((workers s).*1 ++ (inst_workerId <$> news)) ->
       (workers s'').*1 = (workers s).*1 ++ (inst_workerId <$> news)) /\
      installing s'' = installing s /\ busyWorkers s'' = busyWorkers s /\
      runningTasks s'' = runningTasks s /\ tasksQueue s'' = tasksQueue s.
Proof.
  intros [Hpos _] Hlen Henv.
  destruct (createWorkers_run tasks (Z.to_nat workersCount) s Henv)
    as (l & s1 & posts & Hrun & Hrefs & Hspawned & Htrace & Hposts
        & _ & Hworkers & Hrunning & Hbusy & Hqueue & _ & Hinst & Hsubs).
  assert (Hreserve : reserve workersCount s
            = (set_installing (fun pending => pending ++ (reserved <$> l)) s1, Returned tt)).
  { unfold reserve. rewrite decide_True by lia. unfold bind. rewrite Hrun.
    apply subscribeAll_run. }
  assert (Hnews : inst_worker <$> (reserved <$> l) = seq (spawned s) (Z.to_nat workersCount)).
  { rewrite <- Hrefs, <- list_fmap_compose. done. }
  exists (reserved <$> l), posts. unfold exec. rewrite Hreserve. simpl.
  split_and!; try done.
  - apply Forall_forall. by intros i [c [-> _]]%list_elem_of_fmap.
  - by rewrite Hinst.
  - intros exitOf Hexit Hold Hsilent.
    destruct (installExits_run exitOf Hexit (reserved <$> l)
                (set_installing (fun pending => pending ++ (reserved <$> l)) s1)
                (installing s))
      as (Hw & Hi & _ & Hb & Hr & Hq & _).
    + simpl. by rewrite Hinst.
    + rewrite Hnews. eapply Forall_impl; [exact Hold|].
      intros j Hj [Hge _]%elem_of_seq. simpl in Hj. lia.
    + rewrite Hnews. apply NoDup_seq.
    + apply Forall_forall. by intros i [c [-> _]]%list_elem_of_fmap.
    + intros i. simpl. rewrite Hsubs. apply Hsilent.
    + simpl in *. rewrite Hw, Hi, Hb, Hr, Hq, Hworkers. split_and!; try done.
      intros Hnodup. rewrite registerAll_fresh by done.
      rewrite fmap_app, <- list_fmap_compose. done.
Qed.

(** One worker is registered; [reserve(2)] creates two more. *)
Lemma reserve_creates_workersCount_witness :
  let s := samplePool 4 [("w9", 0)] [] [] [] [] in
  spawned (exec (reserve 2) s) = 3 /\
  length (installing (exec (reserve 2) s)) = 2 /\
  workers (exec (reserve 2) s) = [("w9", 0)].
Proof.
  intros s.
  destruct (reserve_creates_workersCount 2 [] s)
    as (news & posts & _ & Hrefs & _ & Hspawned & Hinst & _ & _ & Hworkers & _).
  - simpl. lia.
  - lia.
  - reflexivity.
  - split_and!.
    + rewrite Hspawned. reflexivity.
    + rewrite Hinst. simpl. rewrite <- (length_fmap inst_worker), Hrefs. reflexivity.
    + rewrite Hworkers. reflexivity.
Defined.

(** C7 fails on the code.  With one installed idle worker in a pool of
    capacity 4, [reserve(1)] has no shortfall to fill, yet it creates a
    second worker and sends it the installer; once it has resolved two
    workers are registered, not one. *)
Lemma reserve_ignores_existing_workers :
  let s0 := newWorkersFactory 4 sampleEnvironment (fun i => N.of_nat i) in
  let s1 := onmessage 0 (exitMessage "t1" "w0" false "done") (exec (reserve 1) s0) in
  let s2 := exec (reserve 1) s1 in
  let s3 := onmessage 1 (exitMessage "t3" "w2" false "done") s2 in
  (1 <= poolSize s1)%Z /\
  workers s1 = [("w0", 0)] /\ busyWorkers s1 = [] /\ installing s1 = [] /\
  spawned s1 = 1 /\
  snd (reserve 1 s1) = Returned tt /\
  spawned s2 = 2 /\
  trace s2 = trace s1 ++ [PostMessage 1 (installMessage sampleEnvironment [] "t3" "w2")] /\
  workers s3 = [("w0", 0); ("w2", 1)] /\ busyWorkers s3 = [] /\ installing s3 = [].
Proof. intros s0 s1 s2 s3. split_and!; try reflexivity. vm_compute. discriminate. Qed.

(** ** Capacity *)

(** C1 fails on the code.  In a pool of capacity 2, [reserve(3)] creates
    three workers and, after their installers exit, three are registered.
    In a pool of capacity 1, two [schedule] calls made before the first
    installer has exited create a worker each. *)
Lemma reserve_exceeds_poolSize :
  (let s0 := newWorkersFactory 2 sampleEnvironment (fun i => N.of_nat i) in
   let s1 := exec (reserve 3) s0 in
   let s2 := onmessage 2 (exitMessage "t5" "w4" false "done")
               (onmessage 1 (exitMessage "t3" "w2" false "done")
                  (onmessage 0 (exitMessage "t1" "w0" false "done") s1)) in
   poolSize s2 = 2%Z /\
   snd (reserve 3 s0) = Returned tt /\
   spawned s1 = 3 /\
   workers s2 = [("w0", 0); ("w2", 1); ("w4", 2)]) /\
  (let s0 := newWorkersFactory 1 sampleEnvironment (fun i => N.of_nat i) in
   let s1 := exec (schedule "f" "args" None) s0 in
   let s2 := exec (schedule "g" "args" None) s1 in
   let s3 := onmessage 1 (exitMessage "t5" "w4" false "done")
               (onmessage 0 (exitMessage "t2" "w1" false "done") s2) in
   poolSize s3 = 1%Z /\
   spawned s1 = 1 /\ workers s1 = [] /\
   spawned s2 = 2 /\
   workers s3 = [("w1", 0); ("w4", 1)] /\
   busyWorkers s3 = ["w1"; "w4"]).
Proof. split; intros s0 s1 s2; by split_and!. Qed.

(** X10.  What does hold: with as many registered workers as the capacity, or
    more, [schedule] creates no worker; if moreover every registered worker
    is busy, an unpinned task is appended to the queue and nothing is sent. *)
Lemma schedule_at_capacity entryPoint args s :
  (poolSize s <= Z.of_nat (length (workers s)))%Z ->
  Forall (fun workerId => workerId ∈ busyWorkers s) (workers s).*1 ->
  let s' := exec (schedule entryPoint args None) s in
  snd (schedule entryPoint args None s)
  = Returned ("t" +:+ pretty (rng s (rngPos s) mod 1000000)%N) /\
  spawned s' = spawned s /\
  workers s' = workers s /\
  trace s' = trace s /\
  busyWorkers s' = busyWorkers s /\
  tasksQueue s' = tasksQueue s ++
    [{| taskId := "t" +:+ pretty (rng s (rngPos s) mod 1000000)%N;
        targetWorkerId := None; args := args; entryPoint := entryPoint |}].
Proof.
  intros Hfull Hbusy s'. unfold s', exec.
  unfold schedule, bind, random, gets, getIdleWorkerOrCreate. simpl.
  unfold bind, gets. simpl.
  assert (Hidle : find (fun workerId => workerId ∉ busyWorkers s) (map fst (workers s)) = None).
  { apply find_None. eapply Forall_impl; [exact Hbusy|]. intros w Hw Hn. by apply Hn. }
  rewrite Hidle. simpl. rewrite length_map. rewrite decide_False by lia.
  simpl. done.
Qed.

(** ** Failed installations *)

(** The orchestrator reads neither [error] nor [result] of an [Exit]. *)
Lemma onmessage_ignores_error worker t workerId error error' result result' s :
  onmessage worker (exitMessage t workerId error result) s
  = onmessage worker (exitMessage t workerId error' result') s.
Proof. reflexivity. Qed.

(** C5 fails on the code.  A pool of capacity 1 gets an unpinned task, so a
    worker is created and sent the installer.  The installer's promise is
    rejected: the worker posts [Exit] with [error: true] for the installer
    task.  On that message the worker is registered all the same and the
    waiting task is sent to it.  After that task has exited, a task pinned
    to this worker is accepted and sent to it at once. *)
Lemma failed_install_registers_worker :
  let s0 := newWorkersFactory 1 sampleEnvironment (fun i => N.of_nat i) in
  let s1 := exec (schedule "f" "args" None) s0 in
  let installer := installMessage sampleEnvironment [] "t2" "w1" in
  let posted :=
    entryPointWorker sampleClone installer
      {| builds := true; calls := []; outcome := Rejects "install failed" |} in
  let s2 := receive 0 posted s1 in
  let s3 := onmessage 0 (exitMessage "t0" "w1" false "done") s2 in
  let s4 := exec (schedule "f" "args" (Some "w1")) s3 in
  trace s1 = [PostMessage 0 installer] /\
  workers s1 = [] /\
  filter (fun message => type message = Exit) posted
  = [exitMessage "t2" "w1" true "install failed"] /\
  workers s2 = [("w1", 0)] /\
  busyWorkers s2 = ["w1"] /\
  runningTasks s2 = [("w1", "t0")] /\
  trace s2 = [PostMessage 0 installer;
              PostMessage 0 (executeMessage (sampleTask "t0" None) "w1")] /\
  busyWorkers s3 = [] /\
  snd (schedule "f" "args" (Some "w1") s3) = Returned "t3" /\
  tasksQueue s4 = [] /\
  last (trace s4) = Some (PostMessage 0 (executeMessage (sampleTask "t3" (Some "w1")) "w1")).
Proof. intros s0 s1 installer posted s2 s3 s4. split_and!; reflexivity. Qed.

(** ** Invariants of the reachable states *)

Lemma exec_bind {A B} (m : M A) (k : A -> M B) s :
  exec (bind m k) s
  = match snd (m s) with
    | Returned a => exec (k a) (exec m s)
    | Thrown _ => exec m s
    end.
Proof. unfold exec, bind. by destruct (m s) as [s' [a|e]]. Qed.

Lemma wellFormed_bind {A B} (m : M A) (k : A -> M B) s :
  wellFormed (exec m s) ->
  (forall a, snd (m s) = Returned a -> wellFormed (exec (k a) (exec m s))) ->
  wellFormed (exec (bind m k) s).
Proof. intros Hm Hk. rewrite exec_bind. destruct (snd (m s)); [by apply Hk|done]. Qed.

Lemma wellFormed_pickTask workerId s :
  wellFormed s -> wellFormed (exec (pickTask workerId) s).
Proof.
  intros [Hpins Hsubs Hrefs Hwaiting]. unfold exec.
  destruct (decide (Exists (guardEligible workerId) (tasksQueue s))) as [Hsome|Hnone].
  - destruct (pickTask_find_total _ _ Hsome) as [picked Hfind].
    rewrite (pickTask_picks _ _ picked) by done.
    assert (Hfiltered : Forall (fun t => targetWorkerId t <> Some "")
                          (filter (fun t => taskId t <> taskId picked) (tasksQueue s))).
    { by apply Forall_filter_keeps. }
    destruct (getMember workerId (workers s)) as [worker| |] eqn:Hworker.
    + constructor; simpl; try done.
      apply Forall_app. split; [done|]. constructor; [|done]. simpl. left.
      apply getMember_Entry in Hworker. by rewrite Hworker.
    + constructor; simpl; try done.
      apply Forall_app. split; [done|]. constructor; [|done]. simpl. right.
      by apply getMember_Inherited in Hworker as [_ ?].
    + by constructor.
  - apply not_Exists_Forall in Hnone; [|apply _]. by rewrite pickTask_nothing.
Qed.

Lemma wellFormed_pushTask task s :
  targetWorkerId task <> Some "" -> wellFormed s -> wellFormed (exec (pushTask task) s).
Proof.
  intros Hpin [Hpins Hsubs Hrefs Hwaiting]. constructor; simpl; try done.
  apply Forall_app. split; [done|]. by constructor.
Qed.

Lemma wellFormed_workerReleased workerId t s :
  wellFormed s -> wellFormed (exec (workerReleased workerId t) s).
Proof.
  intros [Hpins Hsubs Hrefs Hwaiting]. unfold exec. rewrite workerReleased_unfold.
  apply wellFormed_pickTask. by constructor.
Qed.

Lemma wellFormed_forEach {A} (f : A -> M unit) (R : A -> Prop) l s :
  Forall R l ->
  (forall x s, R x -> wellFormed s -> wellFormed (exec (f x) s)) ->
  wellFormed s -> wellFormed (exec (forEach f l) s).
Proof.
  intros Hl Hf. revert s. induction Hl as [|x l Hx _ IH]; intros s Hs; [done|].
  cbn [forEach]. apply wellFormed_bind.
  - unfold exec, unhandled. simpl. by apply Hf.
  - intros _ _. apply IH. unfold exec, unhandled. simpl. by apply Hf.
Qed.

Lemma wellFormed_installed i s :
  (forall t, inst_task i = Some t -> targetWorkerId t = None) ->
  wellFormed s -> wellFormed (exec (installed i) s).
Proof.
  intros Hi [Hpins Hsubs Hrefs Hwaiting].
  assert (Hregistered : wellFormed
            (set_workers (insertWorker (inst_workerId i) (inst_worker i)) s)).
  { constructor; simpl; try done.
    eapply Forall_impl; [exact Hsubs|]. intros sub [Hsub|Hsub]; [left|by right].
    simpl in *. rewrite insertWorker_lookup. by case_decide. }
  unfold installed. apply wellFormed_bind; [exact Hregistered|]. intros _ _.
  change (exec (modify _) s)
    with (set_workers (insertWorker (inst_workerId i) (inst_worker i)) s).
  destruct (inst_task i) as [task|] eqn:Htask; [|done].
  apply wellFormed_bind.
  - apply wellFormed_pushTask; [|done]. by rewrite (Hi task).
  - intros _ _. apply wellFormed_pickTask, wellFormed_pushTask; [|done].
    by rewrite (Hi task).
Qed.

Lemma wellFormed_workerChannelNext worker message s :
  wellFormed s -> wellFormed (exec (workerChannelNext worker message) s).
Proof.
  intros Hs. unfold workerChannelNext.
  destruct (decide (type message = Exit)); [|done].
  apply wellFormed_bind; [done|]. intros pending [= <-].
  change (exec (gets installing) s) with s.
  assert (Hfiltered : wellFormed (exec (modify (set_installing
            (filter (fun i => inst_worker i <> worker)))) s)).
  { destruct Hs as [Hpins Hsubs Hrefs Hwaiting].
    constructor; simpl; try done; by apply Forall_filter_keeps. }
  apply wellFormed_bind; [done|]. intros _ _.
  eapply wellFormed_forEach; [|apply wellFormed_installed|done].
  apply Forall_filter_keeps, Hs.
Qed.

Lemma wellFormed_mergedChannelNext message s :
  wellFormed s -> wellFormed (exec (mergedChannelNext message) s).
Proof.
  intros Hs. unfold mergedChannelNext.
  apply wellFormed_bind; [done|]. intros subs _.
  change (exec (gets exitSubs) s) with s.
  assert (Hfiltered : wellFormed (exec (modify (set_exitSubs
            (filter (fun sub => ~ fires message sub)))) s)).
  { destruct Hs as [Hpins Hsubs Hrefs Hwaiting].
    constructor; simpl; try done. by apply Forall_filter_keeps. }
  apply wellFormed_bind; [done|]. intros _ _.
  eapply (wellFormed_forEach _ (fun _ => True)); [|by intros; apply wellFormed_workerReleased|done].
  by apply Forall_true.
Qed.

Lemma workerChannelNext_returns worker message s :
  snd (workerChannelNext worker message s) = Returned tt.
Proof.
  unfold workerChannelNext. destruct (decide (type message = Exit)); [|done].
  unfold bind, gets, modify. simpl.
  generalize (set_installing (filter (fun i => inst_worker i <> worker)) s).
  induction (filter _ (installing s)) as [|i l IH]; intros s1; [done|].
  cbn [forEach]. unfold bind, unhandled at 1. simpl. apply IH.
Qed.

Lemma wellFormed_onmessage worker message s :
  wellFormed s -> wellFormed (onmessage worker message s).
Proof.
  intros Hs. unfold onmessage. apply wellFormed_bind.
  - by apply wellFormed_workerChannelNext.
  - intros _ _. by apply wellFormed_mergedChannelNext, wellFormed_workerChannelNext.
Qed.

Lemma wellFormed_createWorker s :
  wellFormed s ->
  wellFormed (exec createWorker s) /\
  forall c, snd (createWorker s) = Returned c -> fst c < spawned (exec createWorker s).
Proof.
  intros [Hpins Hsubs Hrefs Hwaiting].
  assert (Hmono : Forall (fun i => inst_worker i < S (spawned s)) (installing s)).
  { eapply Forall_impl; [exact Hrefs|]. simpl. lia. }
  destruct (env_postInstallTasks (environment s)) as [tasks|] eqn:Henv.
  - unfold exec. rewrite (createWorker_run tasks) by done. simpl. split.
    + by constructor.
    + intros c [= <-]. simpl. lia.
  - unfold exec, createWorker, bind, random, gets, modify, throw. simpl.
    rewrite Henv. simpl. split; [by constructor|done].
Qed.



Lemma preserves_bind {A B} (m : M A) (k : A -> M B) (Q : A -> State -> Prop) :
  (forall s, wellFormed s ->
     wellFormed (exec m s) /\ forall a, snd (m s) = Returned a -> Q a (exec m s)) ->
  (forall a s, wellFormed s -> Q a s -> wellFormed (exec (k a) s)) ->
  forall s, wellFormed s -> wellFormed (exec (bind m k) s).
Proof.
  intros Hm Hk s Hs. destruct (Hm s Hs) as [Hwf Hpost].
  apply wellFormed_bind; [done|]. intros a Ha. apply Hk; [done|by apply Hpost].
Qed.

Lemma preserves_gets {A B} (f : State -> A) (k : A -> M B) :
  (forall a s, wellFormed s -> wellFormed (exec (k a) s)) ->
  forall s, wellFormed s -> wellFormed (exec (bind (gets f) k) s).
Proof.
  intros Hk. apply (preserves_bind _ _ (fun _ _ => True)); [by intros s Hs|].
  intros a s Hs _. by apply Hk.
Qed.

Lemma preserves_then {A B} (m : M A) (k : M B) :
  (forall s, wellFormed s -> wellFormed (exec m s)) ->
  (forall s, wellFormed s -> wellFormed (exec k s)) ->
  forall s, wellFormed s -> wellFormed (exec (bind m (fun _ => k)) s).
Proof.
  intros Hm Hk. apply (preserves_bind _ _ (fun _ _ => True)).
  - intros s Hs. split; [by apply Hm|done].
  - intros _ s Hs _. by apply Hk.
Qed.

Lemma preserves_ret {A} (a : A) s : wellFormed s -> wellFormed (exec (ret a) s).
Proof. done. Qed.

Lemma wellFormed_subscribeInstall worker workerId task s :
  worker < spawned s ->
  (forall t, task = Some t -> targetWorkerId t = None) ->
  wellFormed s -> wellFormed (exec (subscribeInstall worker workerId task) s).
Proof.
  intros Hworker Htask [Hpins Hsubs Hrefs Hwaiting].
  constructor; simpl; try done; (apply Forall_app; split; [done|]); by constructor.
Qed.

Lemma wellFormed_getIdleWorkerOrCreate s :
  wellFormed s ->
  wellFormed (exec getIdleWorkerOrCreate s) /\
  forall source, snd (getIdleWorkerOrCreate s) = Returned source ->
    match source with
    | Some (Creating worker _) => worker < spawned (exec getIdleWorkerOrCreate s)
    | _ => True
    end.
Proof.
  intros Hs. unfold getIdleWorkerOrCreate, exec, bind, gets. simpl.
  destruct (truthy _).
  - split; [done|]. intros source [= <-]. by destruct (find _ _).
  - unfold ret. simpl. case_decide; [|split; [done|]; by intros source [= <-]].
    destruct (wellFormed_createWorker s Hs) as [Hwf Hfresh]. unfold exec in *.
    destruct (createWorker s) as [s1 [c|e]]; simpl in *; (split; [done|]).
    + intros source [= <-]. by apply Hfresh.
    + done.
Qed.

Lemma wellFormed_schedule entryPoint args target s :
  wellFormed s -> wellFormed (exec (schedule entryPoint args target) s).
Proof.
  revert s. unfold schedule.
  apply (preserves_bind _ _ (fun _ _ => True)).
  { intros s [Hpins Hsubs Hrefs Hwaiting]. split; [by constructor|done]. }
  intros r s Hs _. revert s Hs. apply preserves_gets. intros registered.
  destruct (if truthy target then target else None) as [pinned|] eqn:Htarget.
  - assert (Hpinned : pinned <> "").
    { destruct target as [x|]; simpl in Htarget; [|done].
      case_bool_decide; by simplify_eq. }
    assert (Hqueued : forall s, wellFormed s -> wellFormed (exec (
              pushTask {| taskId := "t" +:+ pretty r; targetWorkerId := Some pinned;
                          args := args; entryPoint := entryPoint |} ;;
              let* busy := gets busyWorkers in
              (if decide (pinned ∈ busy) then ret tt else pickTask pinned) ;;
              ret ("t" +:+ pretty r)) s)).
    { apply preserves_then.
      { intros s Hs. apply wellFormed_pushTask; [|done]. simpl. congruence. }
      apply preserves_gets. intros busy. apply preserves_then; [|apply preserves_ret].
      intros s Hs. case_decide; [done|]. by apply wellFormed_pickTask. }
    by destruct (getMember pinned registered).
  - apply (preserves_bind _ _
             (fun source s => match source with
                              | Some (Creating worker _) => worker < spawned s
                              | _ => True
                              end) wellFormed_getIdleWorkerOrCreate).
    intros [[workerId|worker workerId]|] s Hs Hpost.
    + revert s Hs Hpost. intros s Hs _. revert s Hs. apply preserves_then; [|apply preserves_ret].
      intros s Hs. unfold exec, unhandled. simpl.
      fold (exec (pushTask {| taskId := "t" +:+ pretty r; targetWorkerId := None;
                              args := args; entryPoint := entryPoint |} ;;
                  pickTask workerId) s).
      revert s Hs. apply preserves_then.
      * intros s Hs. by apply wellFormed_pushTask.
      * intros s Hs. by apply wellFormed_pickTask.
    + apply wellFormed_bind; [|intros _ _; apply preserves_ret];
        (apply wellFormed_subscribeInstall; [done| |done]; by intros t [= <-]).
    + revert s Hs Hpost. intros s Hs _. revert s Hs. apply preserves_then; [|apply preserves_ret].
      intros s Hs. by apply wellFormed_pushTask.
Qed.

Lemma wellFormed_reserve workersCount s :
  wellFormed s -> wellFormed (exec (reserve workersCount) s).
Proof.
  intros [Hpins Hsubs Hrefs Hwaiting]. unfold reserve.
  case_decide; [|by constructor].
  destruct (env_postInstallTasks (environment s)) as [tasks|] eqn:Henv.
  - destruct (createWorkers_run tasks (Z.to_nat workersCount) s Henv)
      as (l & s1 & posts & Hrun & Hnew & Hspawned & _ & _
          & _ & Hworkers & _ & _ & Hqueue & _ & Hinst & Hexit).
    unfold exec, bind. rewrite Hrun, subscribeAll_run. simpl.
    constructor; simpl.
    + by rewrite Hqueue.
    + by rewrite Hworkers, Hexit.
    + rewrite Hinst, Hspawned. apply Forall_app. split.
      * eapply Forall_impl; [exact Hrefs|]. simpl. lia.
      * apply Forall_forall. intros i [c [-> Hc]]%list_elem_of_fmap. simpl.
        apply (list_elem_of_fmap_2 fst) in Hc. rewrite Hnew in Hc.
        apply elem_of_seq in Hc. lia.
    + rewrite Hinst. apply Forall_app. split; [done|].
      apply Forall_forall. by intros i [c [-> _]]%list_elem_of_fmap.
  - destruct (Z.to_nat workersCount) as [|n]; [by constructor|].
    unfold exec, bind. cbn [createWorkers]. unfold bind, createWorker at 1, bind, random,
      gets, modify, throw. simpl. rewrite Henv. simpl.
    constructor; simpl; try done.
    eapply Forall_impl; [exact Hrefs|]. simpl. lia.
Qed.

Lemma wellFormed_terminate s : wellFormed s -> wellFormed (exec terminate s).
Proof. intros [Hpins Hsubs Hrefs Hwaiting]. by constructor. Qed.

(** Every state of a run is well formed: no queued task is pinned to the
    empty string, every subscription of [pickTask] is for a registered
    worker, and every pending installation is for a worker that was
    created. *)
Theorem reachable_wellFormed s : reachable s -> wellFormed s.
Proof.
  induction 1 as [size env oracle|s s' _ IH Hstep].
  - by constructor.
  - destruct Hstep.
    + by apply wellFormed_reserve.
    + by apply wellFormed_schedule.
    + by apply wellFormed_pickTask.
    + by apply wellFormed_terminate.
    + by apply wellFormed_onmessage.
Qed.

(** In a run, the release handler does not throw when it is called for a
    subscription of [pickTask] whose worker id is not a name of
    [Object.prototype]: the guard of [pickTask] implies that its [find]
    succeeds, and the worker is registered. *)
Lemma workerReleased_returns sub t s :
  wellFormed s -> sub ∈ exitSubs s -> sub_workerId sub ∉ objectPrototype ->
  snd (workerReleased (sub_workerId sub) t s) = Returned tt.
Proof.
  intros [_ Hsubs _ _] Hsub Hplain. rewrite Forall_forall in Hsubs.
  destruct (Hsubs sub Hsub) as [[worker Hworker]|Hinherited]; [|done].
  apply getMember_own in Hworker.
  rewrite workerReleased_unfold.
  match goal with |- snd (pickTask _ ?s1) = _ => set (s1' := s1) end.
  destruct (decide (Exists (guardEligible (sub_workerId sub)) (tasksQueue s1')))
    as [Hsome|Hnone].
  - destruct (pickTask_find_total _ _ Hsome) as [picked Hfind].
    rewrite (pickTask_picks _ _ picked) by done. simpl. by rewrite Hworker.
  - apply not_Exists_Forall in Hnone; [|apply _]. by rewrite pickTask_nothing.
Qed.

(** Nor does the callback that completes an installation. *)
Lemma installed_returns i s : snd (installed i s) = Returned tt.
Proof.
  unfold installed, bind, modify. simpl.
  destruct (inst_task i) as [task|]; [|done]. unfold pushTask, modify. simpl.
  match goal with |- snd (pickTask _ ?s1) = _ => set (s1' := s1) end.
  assert (Hworker : getMember (inst_workerId i) (workers s1') = Entry (inst_worker i)).
  { apply getMember_own. simpl. rewrite insertWorker_lookup. by rewrite decide_True. }
  destruct (decide (Exists (guardEligible (inst_workerId i)) (tasksQueue s1')))
    as [Hsome|Hnone].
  - destruct (pickTask_find_total _ _ Hsome) as [picked Hfind].
    rewrite (pickTask_picks _ _ picked) by done. by rewrite Hworker.
  - apply not_Exists_Forall in Hnone; [|apply _]. by rewrite pickTask_nothing.
Qed.

(** * Further properties *)

(** ** The workers map only grows *)

Lemma keepsWorkers_bind {A B} (m : M A) (k : A -> M B) :
  keepsWorkers m -> (forall a, keepsWorkers (k a)) -> keepsWorkers (bind m k).
Proof.
  intros Hm Hk s. rewrite exec_bind. destruct (snd (m s)); [|apply Hm].
  by rewrite Hk, Hm.
Qed.

Lemma keepsWorkers_ret {A} (a : A) : keepsWorkers (ret a).
Proof. by intros s. Qed.

Lemma keepsWorkers_throw {A} e : keepsWorkers (@throw A e).
Proof. by intros s. Qed.

Lemma keepsWorkers_gets {A} (f : State -> A) : keepsWorkers (gets f).
Proof. by intros s. Qed.

Lemma keepsWorkers_modify f :
  (forall s, workers (f s) = workers s) -> keepsWorkers (modify f).
Proof. intros Hf s. apply Hf. Qed.

Lemma keepsWorkers_unhandled {A} (m : M A) : keepsWorkers m -> keepsWorkers (unhandled m).
Proof. intros Hm s. apply Hm. Qed.

Lemma keepsWorkers_pickTask workerId : keepsWorkers (pickTask workerId).
Proof. intros s. apply pickTask_frame. Qed.

Lemma keepsWorkers_pushTask task : keepsWorkers (pushTask task).
Proof. by intros s. Qed.

Lemma keepsWorkers_random : keepsWorkers random.
Proof. by intros s. Qed.

Lemma keepsWorkers_createWorker : keepsWorkers createWorker.
Proof.
  unfold createWorker.
  apply keepsWorkers_bind; [apply keepsWorkers_random|]. intros r.
  apply keepsWorkers_bind; [apply keepsWorkers_gets|]. intros worker.
  apply keepsWorkers_bind; [by apply keepsWorkers_modify|]. intros _.
  apply keepsWorkers_bind; [apply keepsWorkers_random|]. intros r'.
  apply keepsWorkers_bind; [apply keepsWorkers_gets|]. intros env.
  destruct (env_postInstallTasks env); [|apply keepsWorkers_throw].
  apply keepsWorkers_bind; [by apply keepsWorkers_modify|]. intros _.
  apply keepsWorkers_ret.
Qed.

Lemma keepsWorkers_createWorkers n : keepsWorkers (createWorkers n).
Proof.
  induction n as [|n IH]; [apply keepsWorkers_ret|]. cbn [createWorkers].
  apply keepsWorkers_bind; [apply keepsWorkers_createWorker|]. intros c.
  apply keepsWorkers_bind; [exact IH|]. intros l. apply keepsWorkers_ret.
Qed.

Lemma keepsWorkers_subscribeAll l : keepsWorkers (subscribeAll l).
Proof.
  induction l as [|[worker workerId] l IH]; [apply keepsWorkers_ret|].
  cbn [subscribeAll]. apply keepsWorkers_bind; [by apply keepsWorkers_modify|].
  intros _. exact IH.
Qed.

Lemma keepsWorkers_reserve workersCount : keepsWorkers (reserve workersCount).
Proof.
  unfold reserve. case_decide; [|apply keepsWorkers_throw].
  apply keepsWorkers_bind; [apply keepsWorkers_createWorkers|]. intros l.
  apply keepsWorkers_subscribeAll.
Qed.

Lemma keepsWorkers_getIdleWorkerOrCreate : keepsWorkers getIdleWorkerOrCreate.
Proof.
  unfold getIdleWorkerOrCreate.
  apply keepsWorkers_bind; [apply keepsWorkers_gets|]. intros registered.
  apply keepsWorkers_bind; [apply keepsWorkers_gets|]. intros busy.
  destruct (truthy _); [apply keepsWorkers_ret|].
  apply keepsWorkers_bind; [apply keepsWorkers_gets|]. intros size.
  case_decide; [|apply keepsWorkers_ret].
  apply keepsWorkers_bind; [apply keepsWorkers_createWorker|]. intros c.
  apply keepsWorkers_ret.
Qed.

Lemma keepsWorkers_schedule entryPoint args target :
  keepsWorkers (schedule entryPoint args target).
Proof.
  unfold schedule.
  apply keepsWorkers_bind; [apply keepsWorkers_random|]. intros r.
  apply keepsWorkers_bind; [apply keepsWorkers_gets|]. intros registered.
  destruct (if truthy target then target else None) as [pinned|].
  - destruct (getMember pinned registered); [| |apply keepsWorkers_throw];
      (apply keepsWorkers_bind; [apply keepsWorkers_pushTask|]; intros _;
       apply keepsWorkers_bind; [apply keepsWorkers_gets|]; intros busy;
       apply keepsWorkers_bind; [|intros _; apply keepsWorkers_ret];
       case_decide; [apply keepsWorkers_ret|apply keepsWorkers_pickTask]).
  - apply keepsWorkers_bind; [apply keepsWorkers_getIdleWorkerOrCreate|].
    intros [[workerId|worker workerId]|].
    + apply keepsWorkers_bind; [|intros _; apply keepsWorkers_ret].
      apply keepsWorkers_unhandled, keepsWorkers_bind; [apply keepsWorkers_pushTask|].
      intros _. apply keepsWorkers_pickTask.
    + apply keepsWorkers_bind; [by apply keepsWorkers_modify|]. intros _.
      apply keepsWorkers_ret.
    + apply keepsWorkers_bind; [apply keepsWorkers_pushTask|]. intros _.
      apply keepsWorkers_ret.
Qed.

Lemma keepsWorkers_terminate : keepsWorkers terminate.
Proof.
  unfold terminate. apply keepsWorkers_bind; [apply keepsWorkers_gets|]. intros registered.
  by apply keepsWorkers_modify.
Qed.

Lemma keepsWorkers_workerReleased workerId t : keepsWorkers (workerReleased workerId t).
Proof.
  unfold workerReleased.
  apply keepsWorkers_bind; [by apply keepsWorkers_modify|]. intros _.
  apply keepsWorkers_bind; [by apply keepsWorkers_modify|]. intros _.
  apply keepsWorkers_pickTask.
Qed.

Lemma keepsWorkers_forEach {A} (f : A -> M unit) l :
  (forall x, keepsWorkers (f x)) -> keepsWorkers (forEach f l).
Proof.
  intros Hf. induction l as [|x l IH]; [apply keepsWorkers_ret|]. cbn [forEach].
  apply keepsWorkers_bind; [apply keepsWorkers_unhandled, Hf|]. intros _. exact IH.
Qed.

Lemma keepsWorkers_mergedChannelNext message : keepsWorkers (mergedChannelNext message).
Proof.
  unfold mergedChannelNext.
  apply keepsWorkers_bind; [apply keepsWorkers_gets|]. intros subs.
  apply keepsWorkers_bind; [by apply keepsWorkers_modify|]. intros _.
  apply keepsWorkers_forEach. intros sub. apply keepsWorkers_workerReleased.
Qed.

Lemma registerAll_app news news' (o : list (WorkerId * WorkerRef)) :
  registerAll (news ++ news') o = registerAll news' (registerAll news o).
Proof. unfold registerAll. apply foldl_app. Qed.

Lemma workers_installed i s :
  workers (exec (installed i) s) = registerAll [i] (workers s).
Proof.
  unfold installed. rewrite exec_bind. simpl.
  destruct (inst_task i) as [task|]; [|done].
  rewrite (keepsWorkers_bind (pushTask task) (fun _ => pickTask (inst_workerId i))); [done| |].
  - apply keepsWorkers_pushTask.
  - intros _. apply keepsWorkers_pickTask.
Qed.

Lemma workers_forEach_installed l s :
  workers (exec (forEach installed l) s) = registerAll l (workers s).
Proof.
  revert s. induction l as [|i l IH]; intros s; [done|].
  cbn [forEach]. rewrite exec_bind. simpl. rewrite IH.
  change (exec (unhandled (installed i)) s) with (exec (installed i) s).
  by rewrite workers_installed.
Qed.

Lemma workers_onmessage worker message s :
  workers (onmessage worker message s)
  = if decide (type message = Exit)
    then registerAll (filter (fun i => inst_worker i = worker) (installing s)) (workers s)
    else workers s.
Proof.
  unfold onmessage. rewrite exec_bind, workerChannelNext_returns.
  rewrite keepsWorkers_mergedChannelNext. unfold workerChannelNext.
  destruct (decide (type message = Exit)); [|done].
  unfold exec, bind, gets, modify. simpl.
  exact (workers_forEach_installed _
           (set_installing (filter (fun i => inst_worker i <> worker)) s)).
Qed.

(** X1.  The workers map changes in one way only: when a worker with a pending
    installation sends an [Exit], that worker is registered.  No method
    call changes it ([reserve] and [schedule] create workers that the pool
    does not see until their installer has exited; [terminate] removes
    nothing), and no other message does. *)
Theorem workers_map_changes_on_installer_exit_only (c : Call) (s : State) :
  workers (perform c s)
  = match c with
    | WorkerMessage worker message =>
        if decide (type message = Exit)
        then registerAll (filter (fun i => inst_worker i = worker) (installing s))
                         (workers s)
        else workers s
    | _ => workers s
    end.
Proof.
  destruct c as [workersCount|entryPoint args target| |worker message]; cbn [perform].
  - apply keepsWorkers_reserve.
  - apply keepsWorkers_schedule.
  - apply keepsWorkers_terminate.
  - apply workers_onmessage.
Qed.

(** ** Runs *)

Lemma reachable_performAll cs s : reachable s -> reachable (performAll cs s).
Proof.
  revert s. induction cs as [|c cs IH]; intros s Hs; [done|].
  unfold performAll in *. simpl. apply IH. apply (reachable_step s); [done|].
  destruct c; constructor.
Qed.

(** X3.  Invariants of a pool, from its construction on, through any
    sequence of calls and messages: no queued task is pinned to the empty
    string; each subscription made by [pickTask] is for a worker of the
    workers map, or for a worker id that is the name of a property inherited
    from [Object.prototype] (which [schedule] accepts as a target); each
    pending installation is for a [Worker] that was created; a task waiting
    for an installation is unpinned. *)
Theorem pool_invariants (cs : list Call) size env oracle :
  let s := performAll cs (newWorkersFactory size env oracle) in
  Forall (fun t => targetWorkerId t <> Some "") (tasksQueue s) /\
  Forall (fun sub => is_Some (lookupWorker (sub_workerId sub) (workers s)) \/
                     sub_workerId sub ∈ objectPrototype) (exitSubs s) /\
  Forall (fun i => inst_worker i < spawned s) (installing s) /\
  Forall (fun i => forall t, inst_task i = Some t -> targetWorkerId t = None) (installing s).
Proof.
  intros s.
  destruct (reachable_wellFormed s) as [Hpins Hsubs Hrefs Hwaiting]; [|done].
  apply reachable_performAll, reachable_new.
Qed.

(** X4.  In a run, the release handler does not throw when it is called
    for the worker of a subscription of [pickTask], unless the id of that
    worker is the name of a property inherited from [Object.prototype]; the
    callback that completes an installation does not throw, in any state. *)
Theorem callbacks_never_throw (cs : list Call) size env oracle sub t i s' :
  let s := performAll cs (newWorkersFactory size env oracle) in
  sub ∈ exitSubs s ->
  sub_workerId sub ∉ objectPrototype ->
  snd (workerReleased (sub_workerId sub) t s) = Returned tt /\
  snd (installed i s') = Returned tt.
Proof.
  intros s Hsub Hplain. split; [|apply installed_returns].
  apply workerReleased_returns; [|done|done].
  apply reachable_wellFormed, reachable_performAll, reachable_new.
Qed.

Lemma callbacks_never_throw_witness :
  let s := performAll [CallSchedule "f" "args" None;
                       WorkerMessage 0 (exitMessage "t2" "w1" false "done")]
             (newWorkersFactory 1 sampleEnvironment (fun i => N.of_nat i)) in
  exitSubs s = [{| sub_taskId := "t0"; sub_workerId := "w1" |}] /\
  snd (workerReleased "w1" "t0" s) = Returned tt.
Proof.
  intros s. split; [reflexivity|].
  apply (callbacks_never_throw
           [CallSchedule "f" "args" None;
            WorkerMessage 0 (exitMessage "t2" "w1" false "done")]
           1 sampleEnvironment (fun i => N.of_nat i)
           {| sub_taskId := "t0"; sub_workerId := "w1" |} "t0"
           {| inst_worker := 0; inst_workerId := "w1"; inst_task := None |} s).
  - change (exitSubs _) with [{| sub_taskId := "t0"; sub_workerId := "w1" |}].
    constructor.
  - by_decide.
Defined.

(** ** A pool without capacity *)

Lemma inert_bind {A B} (m : M A) (k : A -> M B) s :
  inert (exec m s) ->
  (forall a, snd (m s) = Returned a -> inert (exec (k a) (exec m s))) ->
  inert (exec (bind m k) s).
Proof. intros Hm Hk. rewrite exec_bind. destruct (snd (m s)); [by apply Hk|done]. Qed.

Lemma pickTask_unregistered_trace workerId s :
  lookupWorker workerId (workers s) = None ->
  trace (exec (pickTask workerId) s) = trace s.
Proof.
  intros Hnone. unfold exec.
  destruct (decide (Exists (guardEligible workerId) (tasksQueue s))) as [Hsome|Hnothing].
  - destruct (pickTask_find_total _ _ Hsome) as [picked Hfind].
    rewrite (pickTask_picks _ _ picked) by done. unfold getMember. rewrite Hnone.
    by case_decide.
  - apply not_Exists_Forall in Hnothing; [|apply _]. by rewrite pickTask_nothing.
Qed.

Lemma inert_pickTask workerId s : inert s -> inert (exec (pickTask workerId) s).
Proof.
  intros (Hsize & Hworkers & Hinst & Htrace & Hspawned).
  destruct (pickTask_frame workerId s) as (Hsize' & Hworkers' & _ & Hinst' & Hspawned' & _).
  unfold inert. rewrite Hsize', Hworkers', Hinst', Hspawned'.
  rewrite pickTask_unregistered_trace by by rewrite Hworkers.
  done.
Qed.

Lemma inert_forEach {A} (f : A -> M unit) l s :
  (forall x s, inert s -> inert (exec (f x) s)) -> inert s -> inert (exec (forEach f l) s).
Proof.
  intros Hf. revert s. induction l as [|x l IH]; intros s Hs; [done|].
  cbn [forEach]. apply inert_bind.
  - by apply Hf.
  - intros _ _. by apply IH, Hf.
Qed.

Lemma perform_inert c s : isReserve c = false -> inert s -> inert (perform c s).
Proof.
  intros Hc Hs.
  assert (Hsource : forall s, inert s -> getIdleWorkerOrCreate s = (s, Returned None)).
  { clear. intros s (Hsize & Hworkers & _).
    unfold getIdleWorkerOrCreate, bind, gets, ret. simpl. rewrite Hworkers. simpl.
    by rewrite decide_False by lia. }
  destruct c as [workersCount|entryPoint args target| |worker message];
    [done| | |]; cbn [perform].
  - unfold schedule. apply inert_bind; [exact Hs|]. intros r _.
    apply inert_bind; [exact Hs|]. intros registered _.
    change (exec (gets workers) (exec random s)) with (set_rngPos S s).
    assert (Hdrawn : inert (set_rngPos S s)) by exact Hs.
    revert Hdrawn. generalize (set_rngPos S s). clear s Hs. intros s Hs.
    destruct (if truthy target then target else None) as [pinned|].
    + assert (Hqueued : inert (exec (
                pushTask {| taskId := "t" +:+ pretty r; targetWorkerId := Some pinned;
                            args := args; entryPoint := entryPoint |} ;;
                let* busy := gets busyWorkers in
                (if decide (pinned ∈ busy) then ret tt else pickTask pinned) ;;
                ret ("t" +:+ pretty r)) s)).
      { apply inert_bind; [exact Hs|]. intros _ _.
        apply inert_bind; [exact Hs|]. intros busy _.
        assert (Hpicked : inert (exec (if decide (pinned ∈ busy) then ret tt
                                       else pickTask pinned)
                                   (exec (gets busyWorkers) (exec (pushTask
                                      {| taskId := "t" +:+ pretty r;
                                         targetWorkerId := Some pinned;
                                         args := args; entryPoint := entryPoint |}) s)))).
        { case_decide; [exact Hs|]. apply inert_pickTask. exact Hs. }
        by apply inert_bind. }
      destruct (getMember pinned registered); [exact Hqueued|exact Hqueued|exact Hs].
    + apply inert_bind; [unfold exec; by rewrite Hsource|].
      intros source. unfold exec at 2. rewrite Hsource by done. simpl. intros [= <-].
      by apply inert_bind.
  - destruct Hs as (Hsize & Hworkers & Hinst & Htrace & Hspawned).
    unfold exec, terminate, bind, gets, modify, inert. simpl.
    by rewrite Hworkers, Htrace.
  - rewrite onmessage_after_install by by rewrite (proj1 (proj2 (proj2 Hs))).
    unfold mergedChannelNext. apply inert_bind; [exact Hs|]. intros subs _.
    apply inert_bind; [exact Hs|]. intros _ _. apply inert_forEach; [|exact Hs].
    intros sub s1 Hs1. unfold workerReleased.
    apply inert_bind; [exact Hs1|]. intros _ _. apply inert_bind; [exact Hs1|]. intros _ _.
    apply inert_pickTask. exact Hs1.
Qed.

Lemma perform_without_capacity c s :
  isReserve c = false -> plainTarget c ->
  inert s -> exitSubs s = [] ->
  exitSubs (perform c s) = [] /\
  length (tasksQueue s) <= length (tasksQueue (perform c s)).
Proof.
  intros Hc Hplain (Hsize & Hworkers & Hinst & Htrace & Hspawned) Hsubs.
  destruct c as [workersCount|entryPoint args target| |worker message];
    [done| | |]; cbn [perform].
  - unfold exec, schedule, bind, random, gets. simpl. rewrite Hworkers.
    destruct target as [target|]; simpl.
    + case_bool_decide; simpl.
      * rewrite (proj2 (getMember_Undefined target [])) by done. by simpl.
      * unfold getIdleWorkerOrCreate, bind, gets, ret. simpl. rewrite Hworkers. simpl.
        rewrite decide_False by lia. simpl. split; [done|]. rewrite length_app. lia.
    + unfold getIdleWorkerOrCreate, bind, gets, ret. simpl. rewrite Hworkers. simpl.
      rewrite decide_False by lia. simpl. split; [done|]. rewrite length_app. lia.
  - by unfold exec, terminate, bind, gets, modify.
  - rewrite onmessage_after_install by by rewrite Hinst.
    by rewrite mergedChannelNext_silent by by rewrite Hsubs.
Qed.

Lemma performAll_inert cs s :
  Forall (fun c => isReserve c = false) cs -> inert s -> inert (performAll cs s).
Proof.
  revert s. induction cs as [|c cs IH]; intros s Hcs Hs; [done|].
  apply Forall_cons in Hcs as [Hc Hcs]. unfold performAll in *. simpl.
  by apply IH, perform_inert.
Qed.

Lemma performAll_without_capacity cs s :
  Forall (fun c => isReserve c = false) cs -> Forall plainTarget cs ->
  inert s -> exitSubs s = [] ->
  exitSubs (performAll cs s) = [] /\
  length (tasksQueue s) <= length (tasksQueue (performAll cs s)).
Proof.
  revert s. induction cs as [|c cs IH]; intros s Hcs Hplain Hs Hsubs; [done|].
  apply Forall_cons in Hcs as [Hc Hcs]. apply Forall_cons in Hplain as [Hp Hplain].
  destruct (perform_without_capacity c s Hc Hp Hs Hsubs) as [Hsubs' Hlen].
  destruct (IH (perform c s) Hcs Hplain) as [Hsubs'' Hlen']; [by apply perform_inert|done|].
  unfold performAll in *. simpl. split; [done|lia].
Qed.

(** X6.  On a machine where [navigator.hardwareConcurrency] is 2 or less the
    capacity is 0 or less.  A pool used there without [reserve] never runs
    a task: whatever the sequence of [schedule] calls, [terminate] calls and
    messages, no worker is created, none is registered and nothing is ever
    sent.  As long as no task names as its target a property inherited from
    [Object.prototype], the pool accepts tasks all the same: the queue only
    grows. *)
Theorem pool_without_capacity_never_runs (cs : list Call) size env oracle :
  (size <= 0)%Z ->
  Forall (fun c => isReserve c = false) cs ->
  let s := performAll cs (newWorkersFactory size env oracle) in
  spawned s = 0 /\ workers s = [] /\ trace s = [] /\
  (Forall plainTarget cs ->
   forall cs', Forall (fun c => isReserve c = false) cs' -> Forall plainTarget cs' ->
     length (tasksQueue s) <= length (tasksQueue (performAll cs' s))).
Proof.
  intros Hsize Hcs s.
  assert (Hnew : inert (newWorkersFactory size env oracle)) by done.
  destruct (performAll_inert cs _ Hcs Hnew) as (Hsize' & Hworkers & Hinst & Htrace & Hspawned).
  split_and!; try done.
  intros Hplain cs' Hcs' Hplain'.
  destruct (performAll_without_capacity cs _ Hcs Hplain Hnew) as [Hsubs _]; [done|].
  by apply performAll_without_capacity.
Qed.

Lemma pool_without_capacity_never_runs_witness :
  let s := performAll [CallSchedule "f" "args" None; CallSchedule "g" "args" (Some "w1");
                       CallSchedule "h" "args" None]
             (newWorkersFactory 0 sampleEnvironment (fun i => N.of_nat i)) in
  trace s = [] /\ length (tasksQueue s) = 2.
Proof.
  intros s.
  destruct (pool_without_capacity_never_runs
              [CallSchedule "f" "args" None; CallSchedule "g" "args" (Some "w1");
               CallSchedule "h" "args" None]
              0 sampleEnvironment (fun i => N.of_nat i)) as (_ & _ & Htrace & _).
  - lia.
  - repeat constructor.
  - split; [exact Htrace|reflexivity].
Defined.

(** ** A factory built without post-install tasks *)

Lemma createWorker_without_tasks s :
  env_postInstallTasks (environment s) = None ->
  createWorker s = (set_rngPos S (set_spawned S (set_rngPos S s)), Thrown TypeError).
Proof.
  intros Henv. unfold createWorker, bind, random, gets, modify, throw. simpl.
  by rewrite Henv.
Qed.

(** X7.  [postInstallTasks] is an optional argument of the constructor, but
    [createWorker$] maps over it.  In a factory built without it, every
    path that creates a worker throws a [TypeError] after [new Worker(url)]
    and before the installer is sent: [reserve(n)] with [n >= 1] throws
    having created one worker; [schedule] of an unpinned task that needs a
    new worker throws and the task is not queued.  The worker that was
    created receives nothing and is never registered. *)
Theorem missing_postInstallTasks_throws s :
  env_postInstallTasks (environment s) = None ->
  (forall workersCount, (0 < workersCount < 2 ^ 32)%Z ->
     let s' := exec (reserve workersCount) s in
     snd (reserve workersCount s) = Thrown TypeError /\
     spawned s' = S (spawned s) /\ trace s' = trace s /\
     installing s' = installing s /\ workers s' = workers s) /\
  (forall entryPoint args,
     Forall (fun workerId => workerId ∈ busyWorkers s) (workers s).*1 ->
     (Z.of_nat (length (workers s)) < poolSize s)%Z ->
     let s' := exec (schedule entryPoint args None) s in
     snd (schedule entryPoint args None s) = Thrown TypeError /\
     spawned s' = S (spawned s) /\ trace s' = trace s /\
     tasksQueue s' = tasksQueue s /\ installing s' = installing s /\
     workers s' = workers s).
Proof.
  intros Henv. split.
  - intros workersCount Hcount. unfold exec, reserve. rewrite decide_True by lia.
    destruct (Z.to_nat workersCount) as [|n] eqn:Hn; [lia|].
    cbn [createWorkers]. unfold bind. rewrite createWorker_without_tasks by done.
    by split_and!.
  - intros entryPoint args Hbusy Hroom.
    assert (Hidle : find (fun workerId => workerId ∉ busyWorkers s) (map fst (workers s))
                    = None).
    { apply find_None. eapply Forall_impl; [exact Hbusy|]. intros w Hw Hn. by apply Hn. }
    unfold exec, schedule, bind, random, gets, getIdleWorkerOrCreate. simpl.
    unfold bind, gets. simpl. rewrite Hidle. simpl. rewrite length_map.
    rewrite decide_True by lia. unfold bind.
    rewrite createWorker_without_tasks by done. by split_and!.
Qed.

Lemma missing_postInstallTasks_throws_witness :
  let env := {| env_cdnUrl := "cdn.js"; env_variables := []; env_functions := [];
                env_cdnInstallation := "graph"; env_postInstallTasks := None |} in
  let s := newWorkersFactory 2 env (fun i => N.of_nat i) in
  snd (reserve 2 s) = Thrown TypeError /\
  spawned (exec (reserve 2) s) = 1 /\
  snd (schedule "f" "args" None s) = Thrown TypeError /\
  tasksQueue (exec (schedule "f" "args" None) s) = [].
Proof.
  intros env s.
  destruct (missing_postInstallTasks_throws s) as [Hreserve Hschedule]; [reflexivity|].
  destruct (Hreserve 2%Z) as (Hthrown & Hspawned & _); [lia|].
  destruct (Hschedule "f" "args") as (Hthrown' & _ & _ & Hqueue & _).
  - constructor.
  - simpl. lia.
  - by split_and!.
Defined.

(** ** A task pinned to a busy worker *)




(** ** The end of an installation started by [schedule] *)

(** X9.  When the first [Exit] arrives from a worker that [schedule] created for
    a task (whatever the [error] flag of that [Exit]), the worker is
    registered, the task is appended to the queue and [pickTask] runs for
    the worker: the oldest task eligible for it is sent to it and it is
    marked busy.  That task is the one [schedule] created the worker for
    when no older queued task is eligible.  (The task id of the [Exit] is
    supposed to differ from those of the subscriptions and of the queued
    tasks.) *)
Theorem installer_exit_dispatches_waiting_task i task message s :
  type message = Exit ->
  filter (fun j => inst_worker j = inst_worker i) (installing s) = [i] ->
  inst_task i = Some task ->
  targetWorkerId task = None ->
  Forall (fun sub => ~ fires message sub) (exitSubs s) ->
  Forall (fun t => taskId t <> data_taskId (data message)) (tasksQueue s ++ [task]) ->
  let s' := onmessage (inst_worker i) message s in
  exists picked,
    find (findEligible (inst_workerId i)) (tasksQueue s ++ [task]) = Some picked /\
    (Forall (fun t => ~ findEligible (inst_workerId i) t) (tasksQueue s) -> picked = task) /\
    workers s' = insertWorker (inst_workerId i) (inst_worker i) (workers s) /\
    busyWorkers s' = busyWorkers s ++ [inst_workerId i] /\
    runningTasks s' = runningTasks s ++ [(inst_workerId i, taskId picked)] /\
    tasksQueue s' = filter (fun t => taskId t <> taskId picked) (tasksQueue s ++ [task]) /\
    trace s' = trace s ++ [PostMessage (inst_worker i) (executeMessage picked (inst_workerId i))] /\
    installing s' = filter (fun j => inst_worker j <> inst_worker i) (installing s).
Proof.
  intros Hexit Hmine Htask Hunpinned Hsilent Hids s'.
  set (s0 := set_tasksQueue (fun queue => queue ++ [task])
               (set_workers (insertWorker (inst_workerId i) (inst_worker i))
                  (set_installing (filter (fun j => inst_worker j <> inst_worker i)) s))).
  assert (Hsome : Exists (guardEligible (inst_workerId i)) (tasksQueue s0)).
  { simpl. apply Exists_app. right. constructor. unfold guardEligible.
    by rewrite Hunpinned. }
  destruct (pickTask_find_total _ _ Hsome) as [picked Hfind].
  assert (Hworker : lookupWorker (inst_workerId i) (workers s0) = Some (inst_worker i)).
  { simpl. rewrite insertWorker_lookup. by rewrite decide_True. }
  assert (Hpicked : picked ∈ tasksQueue s ++ [task]).
  { apply find_Some in Hfind as [j (Hj & _)%list_find_Some].
    by eapply list_elem_of_lookup_2. }
  assert (Hrun : s' = dispatched (inst_workerId i) picked (inst_worker i) s0).
  { unfold s', onmessage, exec, bind. unfold workerChannelNext at 1.
    rewrite decide_True by done. unfold bind, gets, modify. simpl.
    rewrite Hmine. unfold forEach, unhandled, installed, bind, modify, ret.
    rewrite Htask. unfold pushTask, modify. simpl. fold s0.
    rewrite (pickTask_picks _ _ picked) by done.
    rewrite (getMember_own _ _ (inst_worker i)) by done. simpl.
    apply mergedChannelNext_silent. simpl. apply Forall_app. split; [done|].
    constructor; [|done]. intros [Heq _]. simpl in Heq.
    rewrite Forall_forall in Hids. by apply (Hids picked Hpicked). }
  exists picked. rewrite Hrun. simpl. split_and!; try done.
  intros Hnone. simpl in Hfind. apply find_Some in Hfind as [j Hj].
  apply list_find_Some in Hj as (Hj & Hel & _).
  apply lookup_app_Some in Hj as [Hj|[_ Hj]].
  - rewrite Forall_forall in Hnone. destruct (Hnone picked); [|done].
    by eapply list_elem_of_lookup_2.
  - apply list_lookup_singleton_Some in Hj as [_ <-]. done.
Qed.

Lemma installer_exit_dispatches_waiting_task_witness :
  let s := exec (schedule "f" "args" None)
             (newWorkersFactory 1 sampleEnvironment (fun i => N.of_nat i)) in
  let s' := onmessage 0 (exitMessage "t2" "w1" true "install failed") s in
  workers s' = [("w1", 0)] /\ busyWorkers s' = ["w1"] /\ runningTasks s' = [("w1", "t0")].
Proof.
  intros s s'.
  destruct (installer_exit_dispatches_waiting_task
              {| inst_worker := 0; inst_workerId := "w1";
                 inst_task := Some (sampleTask "t0" None) |}
              (sampleTask "t0" None) (exitMessage "t2" "w1" true "install failed") s)
    as (picked & Hfind & _ & Hworkers & Hbusy & Hrunning & _); try reflexivity.
  - constructor.
  - by_decide.
  - injection Hfind as <-. by split_and!.
Defined.

Lemma schedule_at_capacity_witness :
  let s := samplePool 1 [("w1", 0)] ["w1"] [("w1", "t1")] []
             [{| sub_taskId := "t1"; sub_workerId := "w1" |}] in
  spawned (exec (schedule "f" "args" None) s) = 1 /\
  tasksQueue (exec (schedule "f" "args" None) s) = [sampleTask "t0" None].
Proof.
  intros s.
  destruct (schedule_at_capacity "f" "args" s) as (_ & Hspawned & _ & _ & _ & Hqueue).
  - simpl. lia.
  - by_decide.
  - split; [exact Hspawned|exact Hqueue].
Defined.

(** ** The installer *)

Lemma assignAll_app l l' (self : Scope) :
  assignAll (l ++ l') self = assignAll l' (assignAll l self).
Proof. unfold assignAll. apply foldl_app. Qed.

Lemma assignAll_other l (self : Scope) key :
  key ∉ l.*1 -> assignAll l self !! key = self !! key.
Proof.
  revert self. induction l as [|[k v] l IH]; intros self Hkey; [done|].
  simpl in Hkey. apply not_elem_of_cons in Hkey as [Hne Hkey].
  unfold assignAll in *. simpl. rewrite IH by done. by rewrite lookup_insert_ne.
Qed.

Lemma injectFunctions_other world fs (self : Scope) key :
  key ∉ fs.*1 -> fst (injectFunctions world fs self) !! key = self !! key.
Proof.
  revert self. induction fs as [|[id target] fs IH]; intros self Hkey; [done|].
  simpl in Hkey. apply not_elem_of_cons in Hkey as [Hne Hkey].
  simpl. destruct (evaluate world self target); [|done].
  rewrite IH by done. by rewrite lookup_insert_ne.
Qed.

Lemma inject_other world input (self : Scope) key :
  key ∉ (functions input).*1 -> key ∉ (variables input).*1 ->
  fst (inject world input self) !! key = self !! key.
Proof.
  intros Hfs Hvs. unfold inject.
  pose proof (injectFunctions_other world (functions input) self key Hfs) as Hinjected.
  destruct (injectFunctions world (functions input) self) as [self' [e|]]; [done|].
  simpl in *. by rewrite assignAll_other.
Qed.

Lemma postInstall_other world tasks (self : Scope) calls key :
  (forall scope f a, key ∉ (task_defines (runTask world scope f a)).*1) ->
  fst (fst (postInstall world tasks self calls)) !! key = self !! key.
Proof.
  intros Hdefines. revert self calls.
  induction tasks as [|[[title ep] a] tasks IH]; intros self calls; [done|].
  simpl. destruct (evaluate world self ep) as [f|e]; [|done].
  destruct (task_outcome (runTask world self f a)); simpl.
  - by apply assignAll_other.
  - rewrite IH. by apply assignAll_other.
Qed.

(** The installation leaves alone a global that nothing it assigns is named
    after, once the loader script has run. *)
Lemma entryPointInstall_other world input (self : Scope) globals key :
  clientInstalled world self = false ->
  importScripts world (cdnUrl input) = inr globals ->
  leavesGlobal key world input ->
  fst (entryPointInstall world input self) !! key = assignAll globals self !! key.
Proof.
  intros Hnew Himport (Hfs & Hvs & Hinstall & Htasks).
  unfold entryPointInstall. rewrite Hnew, Himport.
  destruct (clientReady world (assignAll globals self)); [|done].
  destruct (hasCustomInstallers world (cdnInstallation input)); [|done].
  destruct (cdnInstall world (cdnInstallation input))
    as [e|during later defines [|e|]] eqn:Hcdn; try done.
  pose proof (inject_other world input (assignAll defines (assignAll globals self)) key
                Hfs Hvs) as Hinject.
  rewrite (assignAll_other defines) in Hinject by by eapply Hinstall.
  destruct (inject world input (assignAll defines (assignAll globals self)))
    as [self2 [e|]]; [done|]. simpl in Hinject.
  pose proof (postInstall_other world (postInstallTasks input) self2
                (((onEvent <$> during) ++ [info "Start install"] ++ (onEvent <$> later))
                 ++ [info "Dependencies installation done"]) key Htasks) as Hpost.
  rewrite Hinject in Hpost.
  by destruct (postInstall world (postInstallTasks input) self2 _) as [[self3 calls3] [e|]].
Qed.

(** X11.  Once the loader script has defined the CDN client in a worker, as
    a truthy global [@youwol/cdn-client], and as long as nothing that the
    installation assigns has that name, every later run of the installer in
    that worker does nothing and reports success: the worker posts [Start]
    and [Exit] with [error: false], and its scope is untouched.  This holds
    whatever became of the first run, a failed or still pending
    installation included. *)
Theorem installer_never_runs_twice clone world input (self : Scope) globals cdn input'
  t workerId ep a :
  importScripts world (cdnUrl input) = inr globals ->
  assignAll globals self !! "@youwol/cdn-client" = Some cdn ->
  isTruthy world cdn = true ->
  leavesGlobal "@youwol/cdn-client" world input ->
  let self1 := fst (entryPointInstall world input self) in
  let second := entryPointInstall world input' self1 in
  fst second = self1 /\
  entryPointWorker clone {| type := Execute; data := DataExecute t workerId ep a |}
    (snd second)
  = [{| type := Start; data := DataData t workerId [] |};
     exitMessage t workerId false undefinedValue].
Proof.
  intros Himport Hcdn Htruthy Hleaves self1 second.
  assert (Hloaded : clientInstalled world self1 = true).
  { unfold self1. destruct (clientInstalled world self) eqn:Hnew.
    - unfold entryPointInstall. by rewrite Hnew.
    - unfold clientInstalled.
      by rewrite (entryPointInstall_other world input self globals), Hcdn. }
  unfold second, entryPointInstall. rewrite Hloaded. split; [done|].
  unfold entryPointWorker, postResultExit. simpl. by rewrite clones_undefined.
Qed.

Lemma installer_never_runs_twice_witness :
  let input := sampleInstall [("boot", "return fail", "args")] in
  let first := entryPointInstall sampleWorld input ∅ in
  let second := entryPointInstall sampleWorld input (fst first) in
  outcome (snd first) = Rejects "failed" /\
  entryPointWorker sampleClone
    {| type := Execute; data := DataExecute "t1" "w1" "ep" (ArgsValue "a") |} (snd second)
  = [{| type := Start; data := DataData "t1" "w1" [] |};
     exitMessage "t1" "w1" false undefinedValue].
Proof.
  intros input first second. split; [reflexivity|].
  apply (installer_never_runs_twice sampleClone sampleWorld input ∅
           [("@youwol/cdn-client", "cdn")] "cdn" input "t1" "w1" "ep" (ArgsValue "a")).
  - reflexivity.
  - reflexivity.
  - reflexivity.
  - split_and!.
    + by_decide.
    + by_decide.
    + intros during later defines settles [= _ _ <- _]. by_decide.
    + intros scope f a. simpl. repeat case_decide; by_decide.
Defined.

Lemma entryPointInstall_tasks world input (self self2 : Scope) calls2 :
  reachesTasks world input self self2 calls2 ->
  entryPointInstall world input self
  = match postInstall world (postInstallTasks input) self2 calls2 with
    | (self3, calls3, Some e) => (self3, installRun calls3 (Rejects e))
    | (self3, calls3, None) =>
        (self3, installRun (calls3 ++ [info "Post install tasks done"; installDone])
                  (Resolves undefinedValue))
    end.
Proof.
  intros (globals & during & later & defines & Hnew & Himport & Hcdn & Hcustom & Hinstall
          & Hinject & ->).
  unfold entryPointInstall. rewrite Hnew, Himport, Hcdn, Hcustom, Hinstall, Hinject.
  by rewrite <- !app_assoc.
Qed.

Lemma postInstall_app world pre rest (self : Scope) calls :
  postInstall world (pre ++ rest) self calls
  = match postInstall world pre self calls with
    | (self', calls', Some e) => (self', calls', Some e)
    | (self', calls', None) => postInstall world rest self' calls'
    end.
Proof.
  revert self calls. induction pre as [|[[title ep] a] pre IH]; intros self calls; [done|].
  simpl. destruct (evaluate world self ep) as [f|e]; [|done].
  destruct (task_outcome (runTask world self f a)); [done|]. apply IH.
Qed.

Lemma installer_exit clone (run : EntryPointRun) t workerId entryPoint args :
  builds run = true ->
  filter (fun message => type message = Exit)
    (entryPointWorker clone
       {| type := Execute; data := DataExecute t workerId entryPoint args |} run)
  = match outcome run with
    | Returns result | Resolves result => postResultExit clone t workerId result
    | Throws e | Rejects e => postErrorExit clone t workerId e
    | NeverSettles => []
    end.
Proof.
  intros Hbuilds. unfold entryPointWorker. simpl. rewrite Hbuilds.
  rewrite filter_cons_False by done. rewrite filter_app.
  rewrite (filter_none _ (map _ _)).
  - unfold postResultExit, postErrorExit.
    destruct (outcome run) as [result|e|result|e|]; simpl; try done;
      repeat (destruct (clones clone _)); done.
  - apply Forall_forall.
    intros message [[] [-> _]]%(list_elem_of_fmap (contextMessage t workerId)); done.
Qed.

(** X12.  A post-install task that throws ends the installation: whatever
    tasks follow it in the list, none of them is started, the calls of the
    run stop with those of the throwing task (so the completion event is not
    sent), and the promise of the installer is rejected with the thrown
    value.  The worker then posts one [Exit], with [error: true] and the
    thrown value, when that value can be cloned, and no [Exit] at all when it
    cannot. *)
Theorem throwing_post_install_task_ends_installation clone world input
  (self self2 self3 : Scope) calls2 calls3 pre title ep a post f e t workerId entryPoint args :
  reachesTasks world input self self2 calls2 ->
  postInstallTasks input = pre ++ (title, ep, a) :: post ->
  postInstall world pre self2 calls2 = (self3, calls3, None) ->
  evaluate world self3 ep = Evaluates f ->
  task_outcome (runTask world self3 f a) = TaskThrows e ->
  let run := snd (entryPointInstall world input self) in
  outcome run = Rejects e /\
  calls run = calls3 ++ [info ("Start post-install task '" +:+ title +:+ "'")]
              ++ task_calls (runTask world self3 f a) /\
  filter (fun message => type message = Exit)
    (entryPointWorker clone
       {| type := Execute; data := DataExecute t workerId entryPoint args |} run)
  = if clones clone e then [exitMessage t workerId true e] else [].
Proof.
  intros Hreach Htasks Hpre Hf He run.
  assert (Hrun : run = installRun
            (calls3 ++ [info ("Start post-install task '" +:+ title +:+ "'")]
             ++ task_calls (runTask world self3 f a)) (Rejects e)).
  { unfold run. rewrite (entryPointInstall_tasks _ _ _ self2 calls2) by done.
    rewrite Htasks, postInstall_app, Hpre. simpl. rewrite Hf, He.
    by rewrite <- app_assoc. }
  split_and!.
  - by rewrite Hrun.
  - by rewrite Hrun.
  - rewrite installer_exit; by rewrite Hrun.
Qed.

Lemma sample_reachesTasks tasks :
  reachesTasks sampleWorld (sampleInstall tasks) ∅
    (fst (inject sampleWorld (sampleInstall tasks)
            (assignAll [("loadedPyodide", "pyodide")]
               (assignAll [("@youwol/cdn-client", "cdn")] ∅))))
    [info "Start install"; onEvent "pyodide loaded"; info "Dependencies installation done"].
Proof.
  exists [("@youwol/cdn-client", "cdn")], [], ["pyodide loaded"], [("loadedPyodide", "pyodide")].
  by split_and!.
Qed.

Lemma throwing_post_install_task_ends_installation_witness :
  let input := sampleInstall [("first", "return ok", "a"); ("second", "return fail", "b");
                              ("third", "return ok", "c")] in
  let run := snd (entryPointInstall sampleWorld input ∅) in
  outcome run = Rejects "failed" /\
  last (calls run) = Some (info "Start post-install task 'second'") /\
  filter (fun message => type message = Exit)
    (entryPointWorker sampleClone
       {| type := Execute; data := DataExecute "t1" "w1" "ep" (ArgsValue "a") |} run)
  = [exitMessage "t1" "w1" true "failed"].
Proof.
  intros input run.
  set (self2 := fst (inject sampleWorld input
                       (assignAll [("loadedPyodide", "pyodide")]
                          (assignAll [("@youwol/cdn-client", "cdn")] ∅)))).
  set (calls2 := [info "Start install"; onEvent "pyodide loaded";
                  info "Dependencies installation done"]).
  destruct (throwing_post_install_task_ends_installation sampleClone sampleWorld input ∅
              self2 self2 calls2 (calls2 ++ [info "Start post-install task 'first'"])
              [("first", "return ok", "a")] "second" "return fail" "b"
              [("third", "return ok", "c")] "return fail" "failed"
              "t1" "w1" "ep" (ArgsValue "a")) as (Hout & Hcalls & Hexit).
  - apply sample_reachesTasks.
  - reflexivity.
  - reflexivity.
  - reflexivity.
  - reflexivity.
  - split_and!; [exact Hout| |exact Hexit]. unfold run. rewrite Hcalls. reflexivity.
Defined.

Lemma postInstall_returns world tasks (self : Scope) calls :
  Forall (fun task => forall scope : Scope, exists f p,
            evaluate world scope (snd (fst task)) = Evaluates f /\
            task_outcome (runTask world scope f (snd task)) = TaskReturns p) tasks ->
  exists self' calls', postInstall world tasks self calls = (self', calls', None).
Proof.
  intros Htasks. revert self calls.
  induction Htasks as [|[[title ep] a] tasks Htask _ IH]; intros self calls.
  - by exists self, calls.
  - simpl in *. destruct (Htask self) as (f & p & -> & ->). apply IH.
Qed.

(** X13.  The value a post-install entry point returns is dropped.  So when each
    task is built and called without throwing, the installation succeeds
    whatever the promises returned by the tasks become, rejected ones
    included: the run ends with the completion event and the worker posts
    [Exit] with [error: false]. *)
Theorem rejected_post_install_promise_is_ignored clone world input (self self2 : Scope) calls2
  t workerId entryPoint args :
  reachesTasks world input self self2 calls2 ->
  Forall (fun task => forall scope : Scope, exists f p,
            evaluate world scope (snd (fst task)) = Evaluates f /\
            task_outcome (runTask world scope f (snd task)) = TaskReturns p)
         (postInstallTasks input) ->
  let run := snd (entryPointInstall world input self) in
  outcome run = Resolves undefinedValue /\
  last (calls run) = Some installDone /\
  filter (fun message => type message = Exit)
    (entryPointWorker clone
       {| type := Execute; data := DataExecute t workerId entryPoint args |} run)
  = [exitMessage t workerId false undefinedValue].
Proof.
  intros Hreach Htasks run.
  destruct (postInstall_returns world (postInstallTasks input) self2 calls2 Htasks)
    as (self3 & calls3 & Hloop).
  assert (Hrun : run = installRun (calls3 ++ [info "Post install tasks done"; installDone])
                         (Resolves undefinedValue)).
  { unfold run. rewrite (entryPointInstall_tasks _ _ _ self2 calls2) by done.
    by rewrite Hloop. }
  split_and!.
  - by rewrite Hrun.
  - rewrite Hrun. simpl.
    change [info "Post install tasks done"; installDone]
      with ([info "Post install tasks done"] ++ [installDone]).
    by rewrite app_assoc, last_snoc.
  - rewrite installer_exit; rewrite Hrun; [|done]. simpl.
    unfold postResultExit. by rewrite clones_undefined.
Qed.

Lemma rejected_post_install_promise_is_ignored_witness :
  let input := sampleInstall [("first", "return late", "a"); ("second", "return ok", "b")] in
  let run := snd (entryPointInstall sampleWorld input ∅) in
  task_outcome (runTask sampleWorld ∅ "return late" "a")
  = TaskReturns (Some (Rejected "too late")) /\
  outcome run = Resolves undefinedValue /\
  last (calls run) = Some installDone.
Proof.
  intros input run. split; [reflexivity|].
  destruct (rejected_post_install_promise_is_ignored sampleClone sampleWorld input ∅ _ _
              "t1" "w1" "ep" (ArgsValue "a") (sample_reachesTasks _)) as (Hout & Hlast & _).
  - repeat constructor; intros scope; simpl.
    + by exists "return late", (Some (Rejected "too late")).
    + by exists "return ok", None.
  - by split.
Defined.

(** X14.  The variables are injected after the functions, each in the order of
    its list.  So after a successful injection a global named by a variable
    holds the value of the last variable of that name, also when a function
    of the environment has the same name. *)
Theorem variables_override_functions world input (self self' : Scope) pre id v post :
  inject world input self = (self', None) ->
  variables input = pre ++ (id, v) :: post ->
  id ∉ post.*1 ->
  self' !! id = Some v.
Proof.
  unfold inject. intros Hinject Hvariables Hlast.
  destruct (injectFunctions world (functions input) self) as [self1 [e|]]; [done|].
  injection Hinject as <-. rewrite Hvariables, assignAll_app.
  change (assignAll ((id, v) :: post) ?s) with (assignAll post (<[id := v]> s)).
  rewrite assignAll_other by done. apply lookup_insert_eq.
Qed.

Lemma variables_override_functions_witness :
  let input := sampleInstall [] in
  let self' := fst (inject sampleWorld input ∅) in
  self' !! "y" = Some "2" /\ self' !! "x" = Some "3" /\ self' !! "f" = Some "return f".
Proof.
  intros input self'. split_and!.
  - apply (variables_override_functions sampleWorld input ∅ self' [("x", "1")] "y" "2"
             [("x", "3")]); [reflexivity|reflexivity|by_decide].
  - apply (variables_override_functions sampleWorld input ∅ self' [("x", "1"); ("y", "2")]
             "x" "3" []); [reflexivity|reflexivity|by_decide].
  - reflexivity.
Defined.

(** ** The [Process] of a task *)

Lemma processCalls_starts started exited channel :
  length (filter (fun c => c = ProcessStart) (processCalls started exited channel))
  <= if started then 0 else 1.
Proof.
  revert started exited. induction channel as [|message channel IH]; intros started exited.
  - simpl. destruct started; lia.
  - simpl. destruct (type message); try (by apply IH).
    + destruct exited; [apply IH|]. rewrite filter_cons_False; [apply IH|].
      by destruct (data_error (data message)).
    + destruct started; [apply (IH true)|]. rewrite filter_cons_True by done.
      simpl. pose proof (IH true exited). simpl in *. lia.
Qed.

Lemma processCalls_before_exit started exited channel :
  Forall (fun message => type message <> Exit) channel ->
  Forall (fun c => isTerminal c = false) (processCalls started exited channel).
Proof.
  intros Hchannel. revert started exited.
  induction Hchannel as [|message channel Hm _ IH]; intros started exited; [done|].
  simpl. destruct (type message); try done; try (by apply IH).
  - destruct started; [apply IH|]. constructor; [done|apply IH].
  - constructor; [done|apply IH].
Qed.

Lemma processCalls_app started channel rest :
  Forall (fun message => type message <> Exit) channel ->
  exists started',
    processCalls started false (channel ++ rest)
    = processCalls started false channel ++ processCalls started' false rest.
Proof.
  intros Hchannel. revert started.
  induction Hchannel as [|message channel Hm _ IH]; intros started.
  - by exists started.
  - simpl. destruct (type message); try done; try (by apply IH).
    + destruct started; [apply IH|]. destruct (IH true) as [started' ->]. by exists started'.
    + destruct (IH started) as [started' ->]. by exists started'.
Qed.

(** X15.  What the [Process] of a task is told: [start()] at most once; nothing
    that comes after the first [Exit] of the task; and one final call for
    that [Exit], [fail(result)] when its [error] flag is set and
    [succeed()] otherwise, with no such call before it. *)
Theorem process_is_told_one_outcome (t : TaskId) (merged : list MessageEventData) :
  let told := processNotifications t merged in
  let mine := filter (fun message => data_taskId (data message) = t) merged in
  length (filter (fun c => c = ProcessStart) told) <= 1 /\
  match list_find (fun message => type message = Exit) mine with
  | Some (i, e) =>
      exists before,
        told = before ++ [if data_error (data e)
                          then ProcessFail (dataField "result" (data e))
                          else ProcessSucceed] /\
        Forall (fun c => isTerminal c = false) before /\
        before = processCalls false false (take i mine)
  | None => Forall (fun c => isTerminal c = false) told
  end.
Proof.
  intros told mine. split; [apply (processCalls_starts false false)|].
  unfold told, processNotifications, getTaskChannel. fold mine.
  pose proof (takeWhileInclusive_find (fun message => type message = Exit) mine) as Hspec.
  destruct (list_find _ mine) as [[i e]|] eqn:Hfind; rewrite Hspec.
  - apply list_find_Some in Hfind as (Hi & He & Hbefore).
    assert (Htake : Forall (fun message => type message <> Exit) (take i mine)).
    { apply Forall_forall. intros m [j [Hj Hlt]%lookup_take_Some]%list_elem_of_lookup.
      by eapply Hbefore. }
    destruct (processCalls_app false (take i mine) [e] Htake) as [started' ->].
    exists (processCalls false false (take i mine)). split_and!; [|by apply processCalls_before_exit|done].
    f_equal. simpl. by rewrite He.
  - apply processCalls_before_exit.
    by apply (list_find_None (fun message => type message = Exit)).
Qed.

(** ** Dispatch of the messages of a task *)

(** X16.  [dispatchWorkerMessage], in both versions, with or without listener:
    a message reaches one sink at most; only a [Data] message or an [Exit]
    with its [error] flag set reaches one, so [Start] and [Log] messages and
    the [Exit] of a successful task are dropped; and when the function
    throws, nothing was sent. *)
Theorem dispatch_reaches_one_sink_at_most member truthyValue guarded message listener :
  let result := dispatchWorkerMessageWith member truthyValue guarded message listener in
  length (fst result) <= 1 /\
  (fst result <> [] ->
   type message = Data \/ (type message = Exit /\ data_error (data message) = true)) /\
  (snd result <> Returned tt -> fst result = []) /\
  (type message <> Data ->
   (type message = Exit -> data_error (data message) = false) ->
   result = ([], Returned tt)).
Proof.
  intros result. unfold result, dispatchWorkerMessageWith, isPythonStdOutMessage,
    isErrorExitMessage, dispatchUserData, isUserDataMessage.
  destruct (decide (type message <> Data)) as [Hother|Hdata].
  - destruct (decide (type message <> Exit)) as [Hother'|Hexit].
    + simpl. split_and!; try done; lia.
    + apply dec_stable in Hexit.
      destruct (data_error (data message)) eqn:Herror; simpl.
      * destruct (dataField "result" (data message)) as [error|];
          [destruct (member error "message")|]; simpl; split_and!;
          try done; try lia; try (intros _; right; done);
          by (intros _ Hfalse; specialize (Hfalse Hexit)).
      * split_and!; try done; lia.
  - apply dec_stable in Hdata.
    assert (Hnot : type message <> Exit) by (rewrite Hdata; done).
    destruct (decide (dataField "type" (data message) = Some "PythonStdOut")).
    + destruct (dataField "log" (data message)) as [log|];
        [destruct (member log "message")|]; simpl; split_and!;
        try done; try lia; intros _; by left.
    + rewrite (decide_True (P := type message <> Exit)) by done.
      destruct (decide (dataField "type" (data message) = Some "WorkerData")).
      * destruct (dataField "data" (data message)) as [u|]; simpl;
          [destruct (truthyValue u), listener, guarded|]; simpl;
          split_and!; try done; try lia; intros _; by left.
      * simpl. split_and!; try done; lia.
Qed.

(** X17.  The two versions of [dispatchWorkerMessage] do the same whenever a
    listener is given, and reach the same sinks without one.  Without
    listener they differ on a [Data] message of type [WorkerData] whose data
    is truthy: the version testing [userData && workerListener] drops it,
    the version testing [userData] only throws a [TypeError]. *)
Theorem dispatch_versions_differ_without_listener member truthyValue message :
  dispatchWorkerMessageWith member truthyValue true message true
  = dispatchWorkerMessageWith member truthyValue false message true /\
  fst (dispatchWorkerMessageWith member truthyValue true message false)
  = fst (dispatchWorkerMessageWith member truthyValue false message false) /\
  forall userData,
    type message = Data ->
    dataField "type" (data message) = Some "WorkerData" ->
    dataField "data" (data message) = Some userData ->
    truthyValue userData = true ->
    dispatchWorkerMessageWith member truthyValue true message false = ([], Returned tt) /\
    dispatchWorkerMessage member truthyValue message false = ([], Thrown TypeError).
Proof.
  split_and!.
  - unfold dispatchWorkerMessageWith, dispatchUserData.
    destruct (isPythonStdOutMessage member message) as [[[w m]|]|],
             (isErrorExitMessage member message) as [[[w' m']|]|],
             (isUserDataMessage message) as [u|]; try done;
      by destruct (truthyValue u).
  - unfold dispatchWorkerMessageWith, dispatchUserData.
    destruct (isPythonStdOutMessage member message) as [[[w m]|]|],
             (isErrorExitMessage member message) as [[[w' m']|]|],
             (isUserDataMessage message) as [u|]; try done;
      by destruct (truthyValue u).
  - intros userData Hdata Htype Hpayload Htruthy.
    unfold dispatchWorkerMessage, dispatchWorkerMessageWith, isPythonStdOutMessage,
      isErrorExitMessage, dispatchUserData, isUserDataMessage.
    rewrite (decide_False (P := type message <> Data)) by (intros Hn; by apply Hn).
    rewrite (decide_False (P := dataField "type" (data message) = Some "PythonStdOut"))
      by (rewrite Htype; discriminate).
    rewrite (decide_True (P := type message <> Exit)) by (rewrite Hdata; done).
    rewrite (decide_True (P := dataField "type" (data message) = Some "WorkerData")) by done.
    rewrite (decide_False (P := type message <> Data)) by (intros Hn; by apply Hn).
    rewrite Hpayload. simpl. by rewrite Htruthy.
Qed.

Lemma dispatch_versions_differ_without_listener_witness :
  let message := {| type := Data;
                    data := DataData "t1" "w1" [("type", "WorkerData"); ("data", "42")] |} in
  let member := fun (_ : Value) (_ : string) => Returned (@None Value) in
  let truthyValue := fun v : Value => bool_decide (v <> "") in
  dispatchWorkerMessage member truthyValue message false = ([], Thrown TypeError) /\
  dispatchWorkerMessage member truthyValue message true = ([ListenerEmit "42"], Returned tt).
Proof.
  intros message member truthyValue. split; [|reflexivity].
  destruct (dispatch_versions_differ_without_listener member truthyValue message)
    as (_ & _ & Hdiffer).
  by destruct (Hdiffer "42") as [_ Hthrows].
Defined.

(** ** Accumulated events *)

Lemma last_scan {A B} (f : B -> A -> B) (seed : B) (l : list A) :
  l <> [] -> last (scan f seed l) = Some (foldl f seed l).
Proof.
  revert seed. induction l as [|x l IH]; intros seed Hne; [done|].
  destruct l as [|y l]; [done|].
  change (scan f seed (x :: y :: l)) with (f seed x :: scan f (f seed x) (y :: l)).
  change (foldl f seed (x :: y :: l)) with (foldl f (f seed x) (y :: l)).
  rewrite <- IH by done. done.
Qed.

Lemma foldl_cdnEventsReducer acc events :
  Forall (fun e => event_id e <> "reset") events ->
  foldl cdnEventsReducer acc events = acc ++ events.
Proof.
  intros Hevents. revert acc.
  induction Hevents as [|e events He _ IH]; intros acc.
  - by rewrite app_nil_r.
  - simpl. unfold cdnEventsReducer at 2. rewrite decide_False by done.
    by rewrite IH, <- app_assoc.
Qed.

(** X18.  After a call of [installLockFile], and whatever was sent to
    [cdnEvent$] before, [cdnEvents$] holds the events of this installation
    and no other, as long as none of them has the id [reset]: the call
    starts by sending an event of that id, which empties the list. *)
Theorem cdnEvents_since_last_reset before installation :
  Forall (fun e => event_id e <> "reset") installation ->
  last (cdnEvents (before ++ installLockFile installation)) = Some installation.
Proof.
  intros Hsince. unfold cdnEvents, installLockFile.
  rewrite last_scan by by destruct before.
  rewrite foldl_app. simpl. unfold cdnEventsReducer at 2. rewrite decide_True by done.
  by rewrite foldl_cdnEventsReducer.
Qed.

Lemma cdnEvents_since_last_reset_witness :
  let a := {| event_id := "a"; event_step := "SourceLoadingEvent"; event_status := "Pending";
              event_text := "fetch" |} in
  let b := {| event_id := "b"; event_step := "SourceLoadedEvent"; event_status := "Succeeded";
              event_text := "done" |} in
  last (cdnEvents ([a] ++ installLockFile [b] ++ installLockFile [a; b])) = Some [a; b].
Proof.
  intros a b. rewrite app_assoc.
  apply (cdnEvents_since_last_reset ([a] ++ installLockFile [b]) [a; b]).
  repeat constructor; discriminate.
Defined.

(** X19.  After a call of [execPythonCode] on the main thread, and whatever
    was created before, [createdOutputs$] holds the views created by this
    run, in order, and no other: the call starts by sending [true] on
    [triggerOutputsCollect$], which empties the list. *)
Theorem createdOutputs_since_last_run (before : list OutputSignal) (views : list Value) :
  last (createdOutputs (before ++ execPythonCode views)) = Some views.
Proof.
  unfold createdOutputs, execPythonCode. rewrite last_scan by by destruct before.
  rewrite foldl_app. simpl.
  assert (Hfold : forall acc, foldl outputsReducer acc (Created <$> views) = acc ++ views).
  { clear. induction views as [|v views IH]; intros acc; simpl.
    - by rewrite app_nil_r.
    - by rewrite IH, <- app_assoc. }
  by rewrite Hfold.
Qed.

(** ** Run configurations *)

(** X20.  On a project with at least one configuration, [applyConfigurations]
    leaves a selection [run] can use: the selected name is kept when a
    configuration has it, and is the name of the first configuration
    otherwise; [run] then executes the script of the first configuration of
    that name, and does not read [scriptPath] of [undefined]. *)
Theorem applied_configuration_has_a_script configurations configurationName :
  configurations <> [] ->
  exists selected conf,
    applyConfigurations configurations configurationName
      = Returned (configurations, Some selected) /\
    conf ∈ configurations /\
    name conf = selected /\
    selectedScriptPath configurations (Some selected) = Returned (scriptPath conf) /\
    (configurationName = Some selected \/
     (Forall (fun c => Some (name c) <> configurationName) configurations /\
      head configurations = Some conf)).
Proof.
  intros Hne. unfold applyConfigurations, selectedScriptPath.
  destruct (find (fun conf => Some (name conf) = configurationName) configurations)
    as [conf|] eqn:Hfind.
  - pose proof Hfind as Hfound.
    apply find_Some in Hfound as [i Hi]. apply list_find_Some in Hi as (Hlookup & Hname & _).
    exists (name conf), conf. rewrite Hname, Hfind.
    split_and!; [done|by apply list_elem_of_lookup; exists i|done|done|by left].
  - destruct configurations as [|first rest]; [done|].
    exists (name first), first.
    assert (Hfirst : find (fun config => Some (name config) = Some (name first)) (first :: rest)
                     = Some first).
    { unfold find. simpl. by rewrite decide_True. }
    rewrite Hfirst. split_and!; [done|by left|done|done|right].
    split; [|done]. by apply find_None in Hfind.
Qed.

Lemma applied_configuration_has_a_script_witness :
  let configurations :=
    [ {| name := "default"; scriptPath := "./main.py"; parameters := None |};
      {| name := "tests"; scriptPath := "./tests.py"; parameters := Some "-v" |} ] in
  exists selected conf,
    applyConfigurations configurations (Some "removed")
      = Returned (configurations, Some selected) /\
    conf ∈ configurations /\
    name conf = selected /\
    selectedScriptPath configurations (Some selected) = Returned (scriptPath conf) /\
    (Some "removed" = Some selected \/
     (Forall (fun c => Some (name c) <> Some "removed") configurations /\
      head configurations = Some conf)).
Proof.
  intros configurations.
  apply (applied_configuration_has_a_script configurations (Some "removed")). discriminate.
Defined.
